(** * gofiddle/log: a leveled logger with pluggable sinks

    A shallow embedding of the Go package [log] and the properties its
    specification states about it.

    The embedded revision is the one with the mutex-protected formatter,
    the status check in [HTTPLogWriter.Write] and the fallible
    [NewFileLogger] (the package source whose constants start at
    [iota + 1]).  The earlier revision kept in [log.go] differs in a few
    functions; those are embedded separately in [Module Rev0] and compared
    where a property depends on the difference.

    Conventions
    - Go [int] values are [Z]; no arithmetic is performed on them in this
      package, only comparison, so no wrap-around appears.
    - Go [string] and [[]byte] are sequences of bytes: Rocq [string].
    - Calls into collaborators (the formatter, the sink, the mutex, the
      operating system, the HTTP transport) are recorded as events in a
      trace, in program order.
    - A function that may end the process or panic returns an [Outcome]. *)

From Stdlib Require Import ZArith String Ascii List Bool Lia Arith.
Import ListNotations.
Open Scope string_scope.
Open Scope Z_scope.

(** ** Log levels *)

(** [const ( _ = iota; LOG_LEVEL_TRACE; ... )]: the blank identifier takes
    0, the levels take 1 to 6. *)
Definition LOG_LEVEL_TRACE : Z := 1.
Definition LOG_LEVEL_DEBUG : Z := 2.
Definition LOG_LEVEL_INFO : Z := 3.
Definition LOG_LEVEL_WARN : Z := 4.
Definition LOG_LEVEL_ERROR : Z := 5.
Definition LOG_LEVEL_FATAL : Z := 6.

Definition DEFAULT_QUEUE_SIZE : Z := 100.

(** [LogLevel2String]: a [switch] over the six constants with a default. *)
Definition LogLevel2String (level : Z) : string :=
  if level =? LOG_LEVEL_TRACE then "TRACE"
  else if level =? LOG_LEVEL_DEBUG then "DEBUG"
  else if level =? LOG_LEVEL_INFO then "INFO"
  else if level =? LOG_LEVEL_WARN then "WARN"
  else if level =? LOG_LEVEL_ERROR then "ERROR"
  else if level =? LOG_LEVEL_FATAL then "FATAL"
  else "Unknown".

(** *** [strings.ToUpper]

    The library function walks the bytes once: when every byte is below
    [utf8.RuneSelf] (0x80) it upper-cases the ASCII letters in place (and
    returns the argument itself when there is no lower-case letter);
    otherwise it maps [unicode.ToUpper] over the decoded runes.  The
    Unicode path is a parameter [mapUpper] of the model. *)
Definition byte_lt (c : ascii) (n : N) : bool := (N_of_ascii c <? n)%N.

Definition isLowerByte (c : ascii) : bool :=
  ((97 <=? N_of_ascii c) && (N_of_ascii c <=? 122))%N.

Definition upperByte (c : ascii) : ascii :=
  if isLowerByte c then ascii_of_N (N_of_ascii c - 32) else c.

Fixpoint isASCII (s : string) : bool :=
  match s with
  | EmptyString => true
  | String c r => byte_lt c 128 && isASCII r
  end.

Fixpoint hasLower (s : string) : bool :=
  match s with
  | EmptyString => false
  | String c r => isLowerByte c || hasLower r
  end.

Fixpoint upperBytes (s : string) : string :=
  match s with
  | EmptyString => EmptyString
  | String c r => String (upperByte c) (upperBytes r)
  end.

Definition ToUpper (mapUpper : string -> string) (s : string) : string :=
  if isASCII s then (if hasLower s then upperBytes s else s)
  else mapUpper s.

(** [String2LogLevel]: upper-case, then a [switch] on the result.  The
    ["ERROR"] case returns [LOG_LEVEL_WARN], as the source has it. *)
Definition String2LogLevel (mapUpper : string -> string) (str : string) : Z :=
  let str := ToUpper mapUpper str in
  if String.eqb str "TRACE" then LOG_LEVEL_TRACE
  else if String.eqb str "DEBUG" then LOG_LEVEL_DEBUG
  else if String.eqb str "INFO" then LOG_LEVEL_INFO
  else if String.eqb str "WARN" then LOG_LEVEL_WARN
  else if String.eqb str "ERROR" then LOG_LEVEL_WARN
  else if String.eqb str "FATAL" then LOG_LEVEL_FATAL
  else -1.

(** The names the parser's [switch] has a case for. *)
Definition level_names : list string :=
  ["TRACE"; "DEBUG"; "INFO"; "WARN"; "ERROR"; "FATAL"].

(** The levels of the enumeration. *)
Definition levels : list Z :=
  [LOG_LEVEL_TRACE; LOG_LEVEL_DEBUG; LOG_LEVEL_INFO;
   LOG_LEVEL_WARN; LOG_LEVEL_ERROR; LOG_LEVEL_FATAL].

(** Every spelling of a word in upper and lower case letters. *)
Fixpoint case_variants (s : string) : list string :=
  match s with
  | EmptyString => [EmptyString]
  | String c r =>
      let rs := case_variants r in
      let lo := if isLowerByte c then c
                else if isLowerByte (ascii_of_N (N_of_ascii c + 32))
                     then ascii_of_N (N_of_ascii c + 32) else c in
      let up := upperByte lo in
      if Ascii.eqb lo up then map (String c) rs
      else map (String up) rs ++ map (String lo) rs
  end.

(** ** Time

    [time.Time] is an instant together with a location.  The model keeps
    the seconds since the Unix epoch and a fixed zone (abbreviation and
    offset east of UTC in seconds); the package only ever formats a time
    after [UTC()]. *)
Record Location := { zoneName : string; zoneOffset : Z }.
Record Time := { unixSec : Z; loc : Location }.

Definition utcLoc : Location := {| zoneName := "UTC"; zoneOffset := 0 |}.

(** [t.UTC()]: the same instant, located in UTC. *)
Definition Time_UTC (t : Time) : Time :=
  {| unixSec := unixSec t; loc := utcLoc |}.

Record Date := { year : Z; month : Z; day : Z }.
Record Clock := { hour : Z; minute : Z; second : Z }.

(** The proleptic Gregorian date of a day number counted from
    1970-01-01, by 400-year eras starting on a 1 March. *)
Definition dayOfEra (days : Z) : Z := (days + 719468) mod 146097.
Definition eraOf (days : Z) : Z := (days + 719468) / 146097.
Definition yearOfEra (doe : Z) : Z :=
  (doe - doe / 1460 + doe / 36524 - doe / 146096) / 365.
Definition dayOfYear (doe : Z) : Z :=
  let yoe := yearOfEra doe in doe - (365 * yoe + yoe / 4 - yoe / 100).
Definition monthIndex (doe : Z) : Z := (5 * dayOfYear doe + 2) / 153.
Definition monthOfEra (doe : Z) : Z :=
  let mp := monthIndex doe in if mp <? 10 then mp + 3 else mp - 9.
Definition dayOfMonth (doe : Z) : Z :=
  dayOfYear doe - (153 * monthIndex doe + 2) / 5 + 1.

Definition civil (days : Z) : Date :=
  let doe := dayOfEra days in
  let m := monthOfEra doe in
  {| year := yearOfEra doe + eraOf days * 400 + (if m <=? 2 then 1 else 0);
     month := m;
     day := dayOfMonth doe |}.

(** Seconds since the epoch shifted into the zone, as [Format] sees them. *)
Definition localSec (t : Time) : Z := unixSec t + zoneOffset (loc t).

Definition Time_Date (t : Time) : Date := civil (localSec t / 86400).

Definition Time_Clock (t : Time) : Clock :=
  let s := localSec t mod 86400 in
  {| hour := s / 3600; minute := (s mod 3600) / 60; second := s mod 60 |}.

(** *** Decimal rendering, as [time.appendInt] does it: a minus sign for a
    negative number, then the digits, padded with zeros to [width]. *)
Definition digitChar (d : Z) : ascii := ascii_of_N (48 + Z.to_N d).

Fixpoint digitsFuel (fuel : nat) (u : Z) (acc : string) : string :=
  match fuel with
  | O => acc
  | S f =>
      let acc' := String (digitChar (u mod 10)) acc in
      if u / 10 =? 0 then acc' else digitsFuel f (u / 10) acc'
  end.

Definition digits (u : Z) : string :=
  digitsFuel (S (Z.to_nat (Z.log2 u))) u "".

Fixpoint zeros (n : nat) : string :=
  match n with O => "" | S k => String "0" (zeros k) end.

Definition appendInt (x : Z) (width : nat) : string :=
  let u := Z.abs x in
  let ds := digits u in
  let sign := if x <? 0 then "-" else "" in
  (sign ++ zeros (width - String.length ds) ++ ds)%string.

(** *** The layout ["2006-01-02T15:04:05 (MST)"], as [Format] splits it
    into standard chunks and literal text. *)
Inductive Chunk :=
| stdLongYear | stdZeroMonth | stdZeroDay
| stdHour | stdZeroMinute | stdZeroSecond
| stdTZ
| Lit (s : string).

Definition layout : list Chunk :=
  [stdLongYear; Lit "-"; stdZeroMonth; Lit "-"; stdZeroDay; Lit "T";
   stdHour; Lit ":"; stdZeroMinute; Lit ":"; stdZeroSecond;
   Lit " ("; stdTZ; Lit ")"].

(** The zone chunk prints the abbreviation when there is one, and the
    offset as a sign, two digits of hours and two of minutes otherwise. *)
Definition renderZone (l : Location) : string :=
  if String.eqb (zoneName l) "" then
    let zone := Z.quot (zoneOffset l) 60 in
    let sign := if zone <? 0 then "-" else "+" in
    let zone := Z.abs zone in
    (sign ++ appendInt (Z.quot zone 60) 2 ++ appendInt (Z.rem zone 60) 2)%string
  else zoneName l.

Definition renderChunk (t : Time) (c : Chunk) : string :=
  match c with
  | stdLongYear => appendInt (year (Time_Date t)) 4
  | stdZeroMonth => appendInt (month (Time_Date t)) 2
  | stdZeroDay => appendInt (day (Time_Date t)) 2
  | stdHour => appendInt (hour (Time_Clock t)) 2
  | stdZeroMinute => appendInt (minute (Time_Clock t)) 2
  | stdZeroSecond => appendInt (second (Time_Clock t)) 2
  | stdTZ => renderZone (loc t)
  | Lit s => s
  end.

Definition Time_Format (t : Time) (chunks : list Chunk) : string :=
  String.concat "" (map (renderChunk t) chunks).

(** ** Formatters *)

(** [type LogFormatter interface { Format(t, level, message) string }] *)
Record LogFormatter := { Format : Time -> Z -> string -> string }.

(** [DefaultLogFormatter.Format]; [Sprintf] with the three [%s] verbs of
    ["%s: %s: %s\n"] on string operands is concatenation. *)
Definition newline : string := String (ascii_of_N 10) EmptyString.

Definition DefaultLogFormatter_Format (t : Time) (level : Z) (message : string) : string :=
  let timeStr := Time_Format (Time_UTC t) layout in
  (LogLevel2String level ++ ": " ++ timeStr ++ ": " ++ message ++ newline)%string.

Definition DefaultLogFormatter : LogFormatter :=
  {| Format := DefaultLogFormatter_Format |}.

(** A string of the shape [pat], where a [d] in [pat] stands for any
    decimal digit and every other character for itself. *)
Definition isDigit (c : ascii) : bool :=
  ((48 <=? N_of_ascii c) && (N_of_ascii c <=? 57))%N.

Fixpoint shaped (pat s : string) : bool :=
  match pat, s with
  | EmptyString, EmptyString => true
  | String p pr, String c sr =>
      (if Ascii.eqb p "d" then isDigit c else Ascii.eqb p c) && shaped pr sr
  | _, _ => false
  end.

(** ** Errors *)

(** Go's [error] values: the ones the package makes with [errors.New],
    and the ones it receives from the transport or the operating
    system. *)
Inductive error :=
| errors_New (text : string)
| ExternalError (id : nat).

(** ** Writers

    The [io.Writer] values a logger can hold.  A caller-supplied writer
    says whether its method set has [Close() error]; an [*os.File] has it;
    an [*AsyncLogWriter] has [Close()] without a result, so the type
    assertion [w.(io.WriteCloser)] fails on it. *)
Inductive Writer :=
| UserWriter (id : nat) (hasClose : bool)
| FileWriter (fd : nat)
| AsyncWriter (id : nat).

Definition isWriteCloser (w : Writer) : bool :=
  match w with
  | UserWriter _ hasClose => hasClose
  | FileWriter _ => true
  | AsyncWriter _ => false
  end.

(** ** Effects of the logger *)

(** What a logger call does to its collaborators, in program order.  A
    call of a collaborator is an event after which the logger goes on:
    the results of [Write] and [Close] are dropped by the logger, and a
    collaborator that panics instead of returning (a write to an
    asynchronous writer that was closed) is seen in the transition system
    of that writer below, not here. *)
Inductive Event :=
| EvLock
| EvUnlock
| EvFormat (t : Time) (level : Z) (message : string)
| EvWrite (w : Writer) (data : string)
| EvClose (w : Writer).

(** The clock is read by [time.Now()]; each reading takes the next value. *)
Record World := { clock : nat -> Time; ticks : nat; trace : list Event }.

(** The operand of a [panic]: [nil], an [error], or the text of a runtime
    error. *)
Inductive PanicValue :=
| PanicNil
| PanicError (e : error)
| PanicRuntime (text : string).

(** How a call ends: it returns, it panics, or the process exits with a
    status. *)
Inductive Outcome (A : Type) :=
| Returned (a : A)
| Panicked (v : PanicValue)
| Exited (code : Z).
Arguments Returned {A} a.
Arguments Panicked {A} v.
Arguments Exited {A} code.

Definition M (A : Type) : Type := World -> Outcome A * World.

Definition ret {A} (a : A) : M A := fun w => (Returned a, w).

Definition bind {A B} (m : M A) (k : A -> M B) : M B :=
  fun w =>
    match m w with
    | (Returned a, w') => k a w'
    | (Panicked v, w') => (Panicked v, w')
    | (Exited c, w') => (Exited c, w')
    end.

Notation "x <- m ;; k" := (bind m (fun x => k))
  (at level 61, m at next level, right associativity).
Notation "m ;;; k" := (bind m (fun _ => k))
  (at level 61, right associativity).

Definition emit (e : Event) : M unit :=
  fun w => (Returned tt,
            {| clock := clock w; ticks := ticks w; trace := trace w ++ [e] |}).

Definition time_Now : M Time :=
  fun w => (Returned (clock w (ticks w)),
            {| clock := clock w; ticks := S (ticks w); trace := trace w |}).

Definition os_Exit {A} (code : Z) : M A := fun w => (Exited code, w).
Definition panic {A} (v : PanicValue) : M A := fun w => (Panicked v, w).

(** ** The [fmt] renderers

    [Sprint], [Sprintf] and [Sprintln] render the variadic operands; the
    logger only passes their result on, so they are an interface here. *)
Class Fmt := {
  iface : Type;
  Sprint : list iface -> string;
  Sprintf : string -> list iface -> string;
  Sprintln : list iface -> string
}.

(** ** The logger *)

(** [type Logger struct]; a nil interface field is [None].  The mutex is
    seen through its [EvLock] and [EvUnlock] events. *)
Record Logger := {
  level : Z;
  path : string;
  fname : string;
  writer : option Writer;
  writeCloser : option Writer;
  formatter : option LogFormatter
}.

(** [New]: the writer is also the owned closer when it is an
    [io.WriteCloser]. *)
Definition New (w : option Writer) (loglevel : Z) : Logger :=
  {| level := loglevel;
     path := "";
     fname := "";
     writer := w;
     writeCloser := match w with
                    | Some wr => if isWriteCloser wr then Some wr else None
                    | None => None
                    end;
     formatter := Some DefaultLogFormatter |}.

(** [NewHTTPLogger]: an asynchronous writer over the HTTP sink; the
    composite literal leaves [writeCloser] nil.  [aw] names the writer
    that [NewAsyncLogWriter] returned. *)
Definition NewHTTPLogger (aw : nat) (loglevel : Z) : Logger :=
  {| level := loglevel;
     path := "";
     fname := "";
     writer := Some (AsyncWriter aw);
     writeCloser := None;
     formatter := Some DefaultLogFormatter |}.

Definition SetLogLevel (logger : Logger) (lvl : Z) : Logger :=
  {| level := lvl;
     path := path logger;
     fname := fname logger;
     writer := writer logger;
     writeCloser := writeCloser logger;
     formatter := formatter logger |}.

Definition SetFormatter (logger : Logger) (f : option LogFormatter) : M Logger :=
  emit EvLock ;;;
  let logger' := {| level := level logger;
                    path := path logger;
                    fname := fname logger;
                    writer := writer logger;
                    writeCloser := writeCloser logger;
                    formatter := f |} in
  emit EvUnlock ;;;
  ret logger'.

(** [if logger.writeCloser != nil { logger.writeCloser.Close() }] *)
Definition closeOwned (logger : Logger) : M unit :=
  match writeCloser logger with
  | Some wc => emit (EvClose wc)
  | None => ret tt
  end.

Definition Logger_Close (logger : Logger) : M unit :=
  emit EvLock ;;;
  closeOwned logger ;;;
  emit EvUnlock.

Definition Logger_Writer (logger : Logger) : option Writer := writer logger.

(** [Logger.Format]: under the lock, the formatter's result, or the empty
    string when there is no formatter. *)
Definition Logger_Format (logger : Logger) (t : Time) (lvl : Z) (message : string)
  : M string :=
  emit EvLock ;;;
  msg <- match formatter logger with
         | Some f => emit (EvFormat t lvl message) ;;; ret (Format f t lvl message)
         | None => ret ""
         end ;;
  emit EvUnlock ;;;
  ret msg.

(** [if logger.Writer() != nil { logger.Writer().Write([]byte(msg)) }];
    the result of [Write] is dropped. *)
Definition writeOut (logger : Logger) (msg : string) : M unit :=
  match Logger_Writer logger with
  | Some w => emit (EvWrite w msg)
  | None => ret tt
  end.

Section Emission.
Context {F : Fmt}.

(** [Print], [Println], [Printf]: no comparison with the threshold; the
    level handed to the formatter is [logger.level]. *)
Definition Print (logger : Logger) (v : list iface) : M unit :=
  let s := Sprint v in
  now <- time_Now ;;
  msg <- Logger_Format logger now (level logger) s ;;
  writeOut logger msg.

Definition Println (logger : Logger) (v : list iface) : M unit :=
  let s := Sprintln v in
  now <- time_Now ;;
  msg <- Logger_Format logger now (level logger) s ;;
  writeOut logger msg.

Definition Printf (logger : Logger) (format : string) (v : list iface) : M unit :=
  let s := Sprintf format v in
  now <- time_Now ;;
  msg <- Logger_Format logger now (level logger) s ;;
  writeOut logger msg.

(** [Log], [Logf], [Logln]: everything happens under
    [if loglevel >= logger.level]. *)
Definition Log (logger : Logger) (loglevel : Z) (v : list iface) : M unit :=
  if loglevel >=? level logger then
    let s := Sprint v in
    now <- time_Now ;;
    msg <- Logger_Format logger now loglevel s ;;
    writeOut logger msg
  else ret tt.

Definition Logf (logger : Logger) (loglevel : Z) (format : string) (v : list iface)
  : M unit :=
  if loglevel >=? level logger then
    let s := Sprintf format v in
    now <- time_Now ;;
    msg <- Logger_Format logger now loglevel s ;;
    writeOut logger msg
  else ret tt.

Definition Logln (logger : Logger) (loglevel : Z) (v : list iface) : M unit :=
  if loglevel >=? level logger then
    let s := Sprintln v in
    now <- time_Now ;;
    msg <- Logger_Format logger now loglevel s ;;
    writeOut logger msg
  else ret tt.

(** The per-level wrappers. *)
Definition Trace (logger : Logger) v := Log logger LOG_LEVEL_TRACE v.
Definition Tracef (logger : Logger) fmt v := Logf logger LOG_LEVEL_TRACE fmt v.
Definition Traceln (logger : Logger) v := Logln logger LOG_LEVEL_TRACE v.
Definition Debug (logger : Logger) v := Log logger LOG_LEVEL_DEBUG v.
Definition Debugf (logger : Logger) fmt v := Logf logger LOG_LEVEL_DEBUG fmt v.
Definition Debugln (logger : Logger) v := Logln logger LOG_LEVEL_DEBUG v.
Definition Info (logger : Logger) v := Log logger LOG_LEVEL_INFO v.
Definition Infof (logger : Logger) fmt v := Logf logger LOG_LEVEL_INFO fmt v.
Definition Infoln (logger : Logger) v := Logln logger LOG_LEVEL_INFO v.
Definition Warn (logger : Logger) v := Log logger LOG_LEVEL_WARN v.
Definition Warnf (logger : Logger) fmt v := Logf logger LOG_LEVEL_WARN fmt v.
Definition Warnln (logger : Logger) v := Logln logger LOG_LEVEL_WARN v.
Definition Error (logger : Logger) v := Log logger LOG_LEVEL_ERROR v.
Definition Errorf (logger : Logger) fmt v := Logf logger LOG_LEVEL_ERROR fmt v.
Definition Errorln (logger : Logger) v := Logln logger LOG_LEVEL_ERROR v.

(** [Fatal] logs and exits; it has no [writeCloser.Close()] call. *)
Definition Fatal (logger : Logger) (v : list iface) : M unit :=
  Log logger LOG_LEVEL_FATAL v ;;;
  os_Exit 1.

(** [Fatalf] and [Fatalln] log, close the owned closer, and exit. *)
Definition Fatalf (logger : Logger) (format : string) (v : list iface) : M unit :=
  Logf logger LOG_LEVEL_FATAL format v ;;;
  closeOwned logger ;;;
  os_Exit 1.

Definition Fatalln (logger : Logger) (v : list iface) : M unit :=
  Logln logger LOG_LEVEL_FATAL v ;;;
  closeOwned logger ;;;
  os_Exit 1.

(** [Panic], [Panicf], [Panicln] log, close the owned closer, and
    [panic(nil)]. *)
Definition Panic (logger : Logger) (v : list iface) : M unit :=
  Log logger LOG_LEVEL_FATAL v ;;;
  closeOwned logger ;;;
  panic PanicNil.

Definition Panicf (logger : Logger) (format : string) (v : list iface) : M unit :=
  Logf logger LOG_LEVEL_FATAL format v ;;;
  closeOwned logger ;;;
  panic PanicNil.

Definition Panicln (logger : Logger) (v : list iface) : M unit :=
  Logln logger LOG_LEVEL_FATAL v ;;;
  closeOwned logger ;;;
  panic PanicNil.

End Emission.

(** What a trace shows of the sink: the payloads written, in order, and
    the closers closed. *)
Fixpoint writes (tr : list Event) : list string :=
  match tr with
  | [] => []
  | EvWrite _ data :: r => data :: writes r
  | _ :: r => writes r
  end.

Fixpoint formats (tr : list Event) : list (Time * Z * string) :=
  match tr with
  | [] => []
  | EvFormat t l m :: r => (t, l, m) :: formats r
  | _ :: r => formats r
  end.

Fixpoint closes (tr : list Event) : list Writer :=
  match tr with
  | [] => []
  | EvClose w :: r => w :: closes r
  | _ :: r => closes r
  end.

(** A world with an empty trace, for running a call from scratch. *)
Definition fresh (clk : nat -> Time) : World :=
  {| clock := clk; ticks := O; trace := [] |}.

(** ** A [fmt] instance for string operands

    On operands that are all strings [Sprint] concatenates them, and
    [Sprintln] separates them with spaces and ends the line.  [Sprintf]
    is given for the verbs [%s] and [%v] and the escape [%%], with as many
    operands as verbs. *)
Fixpoint joinSpace (v : list string) : string :=
  match v with
  | [] => ""
  | [x] => x
  | x :: r => (x ++ " " ++ joinSpace r)%string
  end.

Fixpoint sprintfStrings (format : string) (v : list string) : string :=
  match format with
  | String "%" (String c r) =>
      if Ascii.eqb c "%" then String "%" (sprintfStrings r v)
      else match v with
           | x :: v' => (x ++ sprintfStrings r v')%string
           | [] => sprintfStrings r []
           end
  | String c r => String c (sprintfStrings r v)
  | EmptyString => EmptyString
  end.

#[export] Instance StringFmt : Fmt := {|
  iface := string;
  Sprint := String.concat "";
  Sprintf := sprintfStrings;
  Sprintln := fun v => (joinSpace v ++ newline)%string
|}.

(** ** The HTTP sink *)

Record HTTPLogWriter := { url : string }.

(** What [http.Post] gives back: a transport error, or a response with a
    status code and a body to close. *)
Inductive PostResult :=
| TransportError (e : error)
| Response (StatusCode : Z).

Inductive HTTPEvent :=
| EvPost (target contentType body : string)
| EvBodyClose.

Definition http_StatusOK : Z := 200.

(** [len(data)] *)
Definition len (data : string) : Z := Z.of_nat (String.length data).

(** [fmt.Sprintf("HTTPLogWriter: %s error!", code)] with an [int] operand:
    the verb [%s] does not apply to integers, and [fmt] prints the
    operand as [%!s(int=N)]. *)
Definition statusErrorText (code : Z) : string :=
  ("HTTPLogWriter: %!s(int=" ++ appendInt code 0 ++ ") error!")%string.

(** [HTTPLogWriter.Write]; the deferred [resp.Body.Close()] runs when the
    function returns, on both paths after the transport check. *)
Definition HTTPLogWriter_Write
  (post : string -> string -> string -> PostResult)
  (w : HTTPLogWriter) (data : string) : (Z * option error) * list HTTPEvent :=
  match post (url w) "html/text" data with
  | TransportError err => ((0, Some err), [EvPost (url w) "html/text" data])
  | Response code =>
      if negb (code =? http_StatusOK) then
        ((0, Some (errors_New (statusErrorText code))),
         [EvPost (url w) "html/text" data; EvBodyClose])
      else
        ((len data, None), [EvPost (url w) "html/text" data; EvBodyClose])
  end.

(** ** The file logger *)

(** The operating system as [NewFileLogger] uses it. *)
Record OS := {
  MkdirAll : string -> Z -> option error;
  OpenFile : string -> Z -> Z -> nat + error;
  Args0 : string
}.

Inductive OSEvent :=
| EvMkdirAll (dir : string) (perm : Z)
| EvOpenFile (name : string) (flag : Z) (perm : Z).

(** The flag bits and permission words (Linux values; [0750] and [0640]
    are octal). *)
Definition O_WRONLY : Z := 1.
Definition O_CREATE : Z := 64.
Definition O_APPEND : Z := 1024.
Definition perm0750 : Z := 488.
Definition perm0640 : Z := 416.

(** [path.Base]: the last element of a slash-separated path; trailing
    slashes are removed first; the empty path gives ["."], a path of
    slashes gives ["/"]. *)
Definition isSlash (c : ascii) : bool := Ascii.eqb c "/".

Fixpoint dropSlashes (l : list ascii) : list ascii :=
  match l with
  | c :: r => if isSlash c then dropSlashes r else l
  | [] => []
  end.

Fixpoint takeElement (l : list ascii) : list ascii :=
  match l with
  | c :: r => if isSlash c then [] else c :: takeElement r
  | [] => []
  end.

Definition path_Base (p : string) : string :=
  if String.eqb p "" then "."
  else
    let r := takeElement (dropSlashes (rev (list_ascii_of_string p))) in
    let b := string_of_list_ascii (rev r) in
    if String.eqb b "" then "/" else b.

(** [NewFileLogger]: the two results are the logger pointer and the
    error. *)
Definition NewFileLogger (os : OS) (logpath fname0 : string) (loglevel : Z)
  : Outcome (option Logger * option error) * list OSEvent :=
  match MkdirAll os logpath perm0750 with
  | Some err => (Returned (None, Some err), [EvMkdirAll logpath perm0750])
  | None =>
      let fname1 := if String.eqb fname0 "" then path_Base (Args0 os) else fname0 in
      let filepath := (logpath ++ "/" ++ fname1 ++ ".log")%string in
      let flag := Z.lor (Z.lor O_CREATE O_WRONLY) O_APPEND in
      match OpenFile os filepath flag perm0640 with
      | inr err =>
          (Returned (None, Some err),
           [EvMkdirAll logpath perm0750; EvOpenFile filepath flag perm0640])
      | inl file =>
          (Returned (Some {| level := loglevel;
                             path := logpath;
                             fname := fname1;
                             writeCloser := Some (FileWriter file);
                             writer := Some (FileWriter file);
                             formatter := Some DefaultLogFormatter |},
                     None),
           [EvMkdirAll logpath perm0750; EvOpenFile filepath flag perm0640])
      end
  end.

(** ** The asynchronous writer

    An [AsyncLogWriter] is a buffered channel of messages, a wrapped
    sink, an unbuffered completion channel [closed], and one goroutine
    that drains the queue.  The model is a transition system over the
    writer and one calling goroutine that runs a list of [Write] and
    [Close] calls; the two goroutines interleave step by step.

    Channel operations follow the language: a send on a buffered channel
    proceeds while the buffer has room, a receive proceeds while it has a
    message, a [range] loop ends when the channel is closed and empty, a
    send on or a [close] of a closed channel panics, and an unbuffered
    send and receive proceed together. *)
Record LogMessage := { data : string }.

(** Where the draining goroutine stands. *)
Inductive Worker :=
| Receiving                 (* at [for msg := range w.queue] *)
| Writing (msg : LogMessage)  (* about to call [w.w.Write(msg.data)] *)
| Signalling                (* at [w.closed <- 1] *)
| Finished.

(** The calls the calling goroutine makes on the writer. *)
Inductive Op :=
| OpWrite (d : string)
| OpClose.

(** Where the calling goroutine stands: between calls, inside [Close] at
    [<-w.closed], or stopped by a runtime panic. *)
Inductive Caller :=
| Running
| Waiting
| CallerPanicked (text : string).

Record Sys (S : Type) := {
  sink : S;
  queue : list LogMessage;
  capacity : Z;
  queueClosed : bool;
  worker : Worker;
  caller : Caller;
  todo : list Op;
  results : list (Z * option error);
  attempts : list string
}.
Arguments sink {S} _.
Arguments queue {S} _.
Arguments capacity {S} _.
Arguments queueClosed {S} _.
Arguments worker {S} _.
Arguments caller {S} _.
Arguments todo {S} _.
Arguments results {S} _.
Arguments attempts {S} _.

(** [NewAsyncLogWriter(w, n)] followed by the caller's program: an empty
    open queue of capacity [n] (or the default when [n <= 0]) and the
    goroutine at the top of its loop. *)
Definition NewAsyncLogWriter {S} (w : S) (n : Z) (program : list Op) : Sys S :=
  {| sink := w;
     queue := [];
     capacity := if n <=? 0 then DEFAULT_QUEUE_SIZE else n;
     queueClosed := false;
     worker := Receiving;
     caller := Running;
     todo := program;
     results := [];
     attempts := [] |}.

Section AsyncSteps.
Context {Sink : Type}.
(** The wrapped sink's [Write]. *)
Variable write : Sink -> string -> Sink * (Z * option error).

(** One step of the calling goroutine.
    - [Write(data)]: [w.queue <- LogMessage{data}], then
      [return len(data), nil].
    - [Close()]: [close(w.queue)], then [<-w.closed], which needs the
      worker at its send. *)
Definition callerStep (s : Sys Sink) : option (Sys Sink) :=
  match caller s with
  | Running =>
      match todo s with
      | [] => None
      | OpWrite d :: rest =>
          if queueClosed s then
            Some {| sink := sink s; queue := queue s; capacity := capacity s;
                    queueClosed := queueClosed s; worker := worker s;
                    caller := CallerPanicked "send on closed channel";
                    todo := todo s; results := results s;
                    attempts := attempts s |}
          else if Z.of_nat (length (queue s)) <? capacity s then
            Some {| sink := sink s;
                    queue := queue s ++ [{| data := d |}];
                    capacity := capacity s;
                    queueClosed := queueClosed s; worker := worker s;
                    caller := Running;
                    todo := rest;
                    results := results s ++ [(len d, None)];
                    attempts := attempts s |}
          else None
      | OpClose :: _ =>
          if queueClosed s then
            Some {| sink := sink s; queue := queue s; capacity := capacity s;
                    queueClosed := queueClosed s; worker := worker s;
                    caller := CallerPanicked "close of closed channel";
                    todo := todo s; results := results s;
                    attempts := attempts s |}
          else
            Some {| sink := sink s; queue := queue s; capacity := capacity s;
                    queueClosed := true; worker := worker s;
                    caller := Waiting;
                    todo := todo s; results := results s;
                    attempts := attempts s |}
      end
  | Waiting =>
      match worker s with
      | Signalling =>
          Some {| sink := sink s; queue := queue s; capacity := capacity s;
                  queueClosed := queueClosed s; worker := Finished;
                  caller := Running;
                  todo := tl (todo s); results := results s;
                  attempts := attempts s |}
      | _ => None
      end
  | CallerPanicked _ => None
  end.

(** One step of the draining goroutine: receive the oldest message, or
    leave the loop when the queue is closed and empty; write the message
    to the sink and drop the result. *)
Definition workerStep (s : Sys Sink) : option (Sys Sink) :=
  match worker s with
  | Receiving =>
      match queue s with
      | msg :: q =>
          Some {| sink := sink s; queue := q; capacity := capacity s;
                  queueClosed := queueClosed s; worker := Writing msg;
                  caller := caller s; todo := todo s; results := results s;
                  attempts := attempts s |}
      | [] =>
          if queueClosed s then
            Some {| sink := sink s; queue := []; capacity := capacity s;
                    queueClosed := queueClosed s; worker := Signalling;
                    caller := caller s; todo := todo s; results := results s;
                    attempts := attempts s |}
          else None
      end
  | Writing msg =>
      Some {| sink := fst (write (sink s) (data msg));
              queue := queue s; capacity := capacity s;
              queueClosed := queueClosed s; worker := Receiving;
              caller := caller s; todo := todo s; results := results s;
              attempts := attempts s ++ [data msg] |}
  | Signalling => None
  | Finished => None
  end.

(** Either goroutine may take the next step. *)
Definition step (s s' : Sys Sink) : Prop :=
  callerStep s = Some s' \/ workerStep s = Some s'.

Inductive reachable (s0 : Sys Sink) : Sys Sink -> Prop :=
| reach_start : reachable s0 s0
| reach_step s s' : reachable s0 s -> step s s' -> reachable s0 s'.

(** Every call of the program has returned. *)
Definition finished (s : Sys Sink) : Prop := caller s = Running /\ todo s = [].

(** A scheduler that lets the worker run whenever it can, for running
    the system on concrete inputs. *)
Fixpoint run (fuel : nat) (s : Sys Sink) : Sys Sink :=
  match fuel with
  | O => s
  | S f =>
      match workerStep s with
      | Some s' => run f s'
      | None => match callerStep s with
                | Some s' => run f s'
                | None => s
                end
      end
  end.

(** The number of steps a state can still take is bounded by this. *)
Fixpoint opsWeight (ops : list Op) : nat :=
  match ops with
  | [] => O
  | OpWrite _ :: r => (3 + opsWeight r)%nat
  | OpClose :: r => (2 + opsWeight r)%nat
  end.

Definition measure (s : Sys Sink) : nat :=
  ((match caller s with
    | Running => opsWeight (todo s)
    | Waiting => 1 + opsWeight (tl (todo s))
    | CallerPanicked _ => 0
    end)
   + 2 * length (queue s)
   + (match worker s with
      | Receiving => 1
      | Writing _ => 2
      | Signalling => 0
      | Finished => 0
      end))%nat.

End AsyncSteps.

(** The program of the FIFO scenario: [N] writes, then [Close]. *)
Definition writesThenClose (msgs : list string) : list Op :=
  map OpWrite msgs ++ [OpClose].

(** A recording sink that fails on the payloads [fails] selects: it keeps
    what it accepted. *)
Definition recordingWrite (fails : string -> bool) (st : list string) (d : string)
  : list string * (Z * option error) :=
  if fails d then (st, (0, Some (ExternalError 0)))
  else ((st ++ [d])%list, (len d, None)).

(** * The earlier revision ([log.go])

    The functions of the earlier revision that differ from the ones
    above, and what the differences mean for the properties. *)
Module Rev0.

(** The constants are written out, from 0. *)
Definition LOG_LEVEL_TRACE : Z := 0.
Definition LOG_LEVEL_DEBUG : Z := 1.
Definition LOG_LEVEL_INFO : Z := 2.
Definition LOG_LEVEL_WARN : Z := 3.
Definition LOG_LEVEL_ERROR : Z := 4.
Definition LOG_LEVEL_FATAL : Z := 5.

Definition LogLevel2String (level : Z) : string :=
  if level =? LOG_LEVEL_TRACE then "TRACE"
  else if level =? LOG_LEVEL_DEBUG then "DEBUG"
  else if level =? LOG_LEVEL_INFO then "INFO"
  else if level =? LOG_LEVEL_WARN then "WARN"
  else if level =? LOG_LEVEL_ERROR then "ERROR"
  else if level =? LOG_LEVEL_FATAL then "FATAL"
  else "Unknown".

Definition String2LogLevel (mapUpper : string -> string) (str : string) : Z :=
  let str := ToUpper mapUpper str in
  if String.eqb str "TRACE" then LOG_LEVEL_TRACE
  else if String.eqb str "DEBUG" then LOG_LEVEL_DEBUG
  else if String.eqb str "INFO" then LOG_LEVEL_INFO
  else if String.eqb str "WARN" then LOG_LEVEL_WARN
  else if String.eqb str "ERROR" then LOG_LEVEL_WARN
  else if String.eqb str "FATAL" then LOG_LEVEL_FATAL
  else -1.

Definition DefaultLogFormatter_Format (t : Time) (level : Z) (message : string)
  : string :=
  let timeStr := Time_Format (Time_UTC t) layout in
  (LogLevel2String level ++ ": " ++ timeStr ++ ": " ++ message ++ newline)%string.

Definition DefaultLogFormatter : LogFormatter :=
  {| Format := DefaultLogFormatter_Format |}.

(** [HTTPLogWriter.Write] without the status check. *)
Definition HTTPLogWriter_Write
  (post : string -> string -> string -> PostResult)
  (w : HTTPLogWriter) (data : string) : (Z * option error) * list HTTPEvent :=
  match post (url w) "html/text" data with
  | TransportError err => ((0, Some err), [EvPost (url w) "html/text" data])
  | Response _ =>
      ((len data, None), [EvPost (url w) "html/text" data; EvBodyClose])
  end.

(** [NewFileLogger] with one result: it panics with the error. *)
Definition NewFileLogger (os : OS) (logpath fname0 : string) (loglevel : Z)
  : Outcome Logger * list OSEvent :=
  match MkdirAll os logpath perm0750 with
  | Some err => (Panicked (PanicError err), [EvMkdirAll logpath perm0750])
  | None =>
      let fname1 := if String.eqb fname0 "" then path_Base (Args0 os) else fname0 in
      let filepath := (logpath ++ "/" ++ fname1 ++ ".log")%string in
      let flag := Z.lor (Z.lor O_CREATE O_WRONLY) O_APPEND in
      match OpenFile os filepath flag perm0640 with
      | inr err =>
          (Panicked (PanicError err),
           [EvMkdirAll logpath perm0750; EvOpenFile filepath flag perm0640])
      | inl file =>
          (Returned {| level := loglevel;
                       path := logpath;
                       fname := fname1;
                       writeCloser := Some (FileWriter file);
                       writer := Some (FileWriter file);
                       formatter := Some DefaultLogFormatter |},
           [EvMkdirAll logpath perm0750; EvOpenFile filepath flag perm0640])
      end
  end.

(** The asynchronous writer with a [closing] flag: the goroutine runs
    [for !w.closing { for msg := range w.queue { ... } }] and then signals;
    [Close] sets the flag and waits for the signal.  The queue is never
    closed, so the inner loop only ends by never having started.
    [entered] says that the goroutine has evaluated [!w.closing]. *)
Record AState (S : Type) := {
  sys : Sys S;
  closing : bool;
  entered : bool
}.
Arguments sys {S} _.
Arguments closing {S} _.
Arguments entered {S} _.

Definition NewAsyncLogWriter {S} (w : S) (n : Z) (program : list Op) : AState S :=
  {| sys := NewAsyncLogWriter w n program;
     closing := false;
     entered := false |}.

Definition setWorker {S} (s : Sys S) (wk : Worker) : Sys S :=
  {| sink := sink s; queue := queue s; capacity := capacity s;
     queueClosed := queueClosed s; worker := wk; caller := caller s;
     todo := todo s; results := results s; attempts := attempts s |}.

Definition setCaller {S} (s : Sys S) (c : Caller) (ops : list Op) : Sys S :=
  {| sink := sink s; queue := queue s; capacity := capacity s;
     queueClosed := queueClosed s; worker := worker s; caller := c;
     todo := ops; results := results s; attempts := attempts s |}.

Section Steps.
Context {Sink : Type}.
Variable write : Sink -> string -> Sink * (Z * option error).

Definition callerStep (a : AState Sink) : option (AState Sink) :=
  let s := sys a in
  match caller s with
  | Running =>
      match todo s with
      | [] => None
      | OpWrite d :: rest =>
          if Z.of_nat (length (queue s)) <? capacity s then
            Some {| sys := {| sink := sink s;
                              queue := queue s ++ [{| data := d |}];
                              capacity := capacity s;
                              queueClosed := queueClosed s;
                              worker := worker s;
                              caller := Running;
                              todo := rest;
                              results := results s ++ [(len d, None)];
                              attempts := attempts s |};
                    closing := closing a; entered := entered a |}
          else None
      | OpClose :: _ =>
          Some {| sys := setCaller s Waiting (todo s);
                  closing := true; entered := entered a |}
      end
  | Waiting =>
      match worker s with
      | Signalling =>
          Some {| sys := setCaller (setWorker s Finished) Running (tl (todo s));
                  closing := closing a; entered := entered a |}
      | _ => None
      end
  | CallerPanicked _ => None
  end.

Definition workerStep (a : AState Sink) : option (AState Sink) :=
  let s := sys a in
  if negb (entered a) then
    Some {| sys := setWorker s (if closing a then Signalling else Receiving);
            closing := closing a; entered := true |}
  else
    match worker s with
    | Receiving =>
        match queue s with
        | msg :: q =>
            Some {| sys := {| sink := sink s; queue := q;
                              capacity := capacity s;
                              queueClosed := queueClosed s;
                              worker := Writing msg;
                              caller := caller s; todo := todo s;
                              results := results s;
                              attempts := attempts s |};
                    closing := closing a; entered := true |}
        | [] => None
        end
    | Writing msg =>
        Some {| sys := {| sink := fst (write (sink s) (data msg));
                          queue := queue s; capacity := capacity s;
                          queueClosed := queueClosed s;
                          worker := Receiving;
                          caller := caller s; todo := todo s;
                          results := results s;
                          attempts := attempts s ++ [data msg] |};
                closing := closing a; entered := true |}
    | Signalling => None
    | Finished => None
    end.

(** A schedule names the goroutine that moves at each step. *)
Inductive Turn := CallerTurn | WorkerTurn.

Fixpoint follow (turns : list Turn) (a : AState Sink) : option (AState Sink) :=
  match turns with
  | [] => Some a
  | CallerTurn :: r =>
      match callerStep a with Some a' => follow r a' | None => None end
  | WorkerTurn :: r =>
      match workerStep a with Some a' => follow r a' | None => None end
  end.

End Steps.

End Rev0.

(** * Vocabulary of the properties *)

(** A check of every integer of a range, by running it. *)
Fixpoint all_from (fuel : nat) (x : Z) (p : Z -> bool) : bool :=
  match fuel with
  | O => true
  | S f => p x && all_from f (x + 1) p
  end.

(** The reference instant of Go's layouts, 2006-01-02T15:04:05 in the
    zone MST, seven hours west of UTC. *)
Definition referenceTime : Time :=
  {| unixSec := 1136239445;
     loc := {| zoneName := "MST"; zoneOffset := -25200 |} |}.

(** A clock that ticks once a second from the reference instant. *)
Definition tickingClock (n : nat) : Time :=
  {| unixSec := unixSec referenceTime + Z.of_nat n; loc := loc referenceTime |}.

(** The text a logger hands to its sink for a message rendered as [s]. *)
Definition recordText (logger : Logger) (t : Time) (lvl : Z) (s : string) : string :=
  match formatter logger with
  | Some f => Format f t lvl s
  | None => ""
  end.

(** The events of one emission: the formatter runs under the lock, then
    the sink is written once. *)
Definition emissionTrace (logger : Logger) (t : Time) (lvl : Z) (s : string)
  : list Event :=
  [EvLock]
    ++ match formatter logger with
       | Some _ => [EvFormat t lvl s]
       | None => []
       end
    ++ [EvUnlock]
    ++ match writer logger with
       | Some snk => [EvWrite snk (recordText logger t lvl s)]
       | None => []
       end.

(** The body shared by the emission functions. *)
Definition emitAt (logger : Logger) (lvl : Z) (s : string) : M unit :=
  now <- time_Now ;;
  msg <- Logger_Format logger now lvl s ;;
  writeOut logger msg.

Definition after (w : World) (evs : list Event) : World :=
  {| clock := clock w; ticks := S (ticks w); trace := trace w ++ evs |}.

Section Scenarios.
Context {F : Fmt}.

(** Scenario A: [Trace], [Debug], [Info], [Warn], [Error], once each. *)
Definition scenarioA (logger : Logger) (v1 v2 v3 v4 v5 : list iface) : M unit :=
  Trace logger v1 ;;; Debug logger v2 ;;; Info logger v3 ;;;
  Warn logger v4 ;;; Error logger v5.

End Scenarios.

(** The closers a logger owns. *)
Definition owned (logger : Logger) : list Writer :=
  match writeCloser logger with
  | Some wc => [wc]
  | None => []
  end.

(** A file logger at INFO, as [NewFileLogger] builds it. *)
Definition fileLogger : Logger :=
  {| level := LOG_LEVEL_INFO; path := "/var/log"; fname := "gofiddle";
     writeCloser := Some (FileWriter 3); writer := Some (FileWriter 3);
     formatter := Some DefaultLogFormatter |}.

(** An operating system that refuses to create directories, and one
    that accepts everything. *)
Definition readOnlyOS : OS :=
  {| MkdirAll := fun _ _ => Some (ExternalError 30);
     OpenFile := fun _ _ _ => inl 3%nat;
     Args0 := "/usr/local/bin/server" |}.

Definition plainOS : OS :=
  {| MkdirAll := fun _ _ => None;
     OpenFile := fun _ _ _ => inl 3%nat;
     Args0 := "/usr/local/bin/server" |}.

Section DrainVocabulary.
Context {Sink : Type}.
Variable write : Sink -> string -> Sink * (Z * option error).

(** The payloads of the writes still to be called, of the message the
    worker holds, and the sink state after a list of writes. *)
Fixpoint pendingWrites (ops : list Op) : list string :=
  match ops with
  | [] => []
  | OpWrite d :: r => d :: pendingWrites r
  | OpClose :: r => pendingWrites r
  end.

Definition inflight (wk : Worker) : list string :=
  match wk with
  | Writing m => [data m]
  | _ => []
  end.

Definition sinkAfter (sink0 : Sink) (ds : list string) : Sink :=
  fold_left (fun st d => fst (write st d)) ds sink0.

(** The payloads the caller has handed over so far. *)
Definition accepted (s : Sys Sink) : list string :=
  (attempts s ++ inflight (worker s) ++ map data (queue s))%list.

(** Where the two goroutines can stand relative to each other while the
    program [N writes; Close] runs. *)
Definition phase (s : Sys Sink) : Prop :=
  (caller s = Running /\ (exists rest, todo s = writesThenClose rest) /\
   queueClosed s = false /\
   (worker s = Receiving \/ exists m, worker s = Writing m)) \/
  (caller s = Waiting /\ todo s = [OpClose] /\ queueClosed s = true /\
   worker s <> Finished /\ (worker s = Signalling -> queue s = [])) \/
  (caller s = Running /\ todo s = [] /\ queueClosed s = true /\
   worker s = Finished /\ queue s = []).

Definition drainInv (sink0 : Sink) (n : Z) (msgs : list string) (s : Sys Sink)
  : Prop :=
  capacity s = (if n <=? 0 then DEFAULT_QUEUE_SIZE else n) /\
  (accepted s ++ pendingWrites (todo s))%list = msgs /\
  results s = map (fun d => (len d, @None error)) (accepted s) /\
  sink s = sinkAfter sink0 (attempts s) /\
  phase s.

End DrainVocabulary.

(** The states of a fresh writer on which [Close] is called twice. *)
Definition twice0 {Sink} (sink0 : Sink) (n : Z) : Sys Sink :=
  NewAsyncLogWriter sink0 n [OpClose; OpClose].

Definition twiceAt {Sink} (sink0 : Sink) (n : Z)
  (closed : bool) (wk : Worker) (c : Caller) (ops : list Op) : Sys Sink :=
  {| sink := sink0; queue := []; capacity := capacity (twice0 sink0 n);
     queueClosed := closed; worker := wk; caller := c; todo := ops;
     results := []; attempts := [] |}.

Definition closePanic : Caller := CallerPanicked "close of closed channel".

Definition onTwicePath {Sink} (sink0 : Sink) (n : Z) (s : Sys Sink) : Prop :=
  s = twiceAt sink0 n false Receiving Running [OpClose; OpClose] \/
  s = twiceAt sink0 n true Receiving Waiting [OpClose; OpClose] \/
  s = twiceAt sink0 n true Signalling Waiting [OpClose; OpClose] \/
  s = twiceAt sink0 n true Finished Running [OpClose] \/
  s = twiceAt sink0 n true Finished closePanic [OpClose].

(** ** Vocabulary of the further properties *)

(** The mutex as a trace shows it.  [lockState held tr] follows the trace
    from a mutex that is held or free and gives its state at the end; it
    fails when the trace locks a held mutex, unlocks a free one, calls the
    formatter with the mutex free, or writes the sink with the mutex
    held. *)
Fixpoint lockState (held : bool) (tr : list Event) : option bool :=
  match tr with
  | [] => Some held
  | EvLock :: r => if held then None else lockState true r
  | EvUnlock :: r => if held then lockState false r else None
  | EvFormat _ _ _ :: r => if held then lockState held r else None
  | EvWrite _ _ :: r => if held then None else lockState held r
  | EvClose _ :: r => lockState held r
  end.

(** The closers closed by a trace, each with the state of the mutex at
    that moment. *)
Fixpoint closesWithLock (held : bool) (tr : list Event) : list (Writer * bool) :=
  match tr with
  | [] => []
  | EvLock :: r => closesWithLock true r
  | EvUnlock :: r => closesWithLock false r
  | EvClose w :: r => (w, held) :: closesWithLock held r
  | _ :: r => closesWithLock held r
  end.

Section Batches.
Context {F : Fmt}.

(** A batch of [Log] calls, each with its level and operands, in order. *)
Fixpoint logAll (logger : Logger) (calls : list (Z * list iface)) : M unit :=
  match calls with
  | [] => ret tt
  | (lvl, v) :: r => Log logger lvl v ;;; logAll logger r
  end.

(** The records a batch is to leave in the sink: one for each call at or
    above the threshold, stamped with successive clock readings starting
    at reading [k]. *)
Fixpoint batchRecords (logger : Logger) (clk : nat -> Time) (k : nat)
         (calls : list (Z * list iface)) : list string :=
  match calls with
  | [] => []
  | (lvl, v) :: r =>
      if lvl >=? level logger
      then recordText logger (clk k) lvl (Sprint v)
             :: batchRecords logger clk (S k) r
      else batchRecords logger clk k r
  end.

End Batches.

(** [s] ends with the line feed. *)
Definition endsWithNewline (s : string) : Prop :=
  exists body, s = (body ++ newline)%string.

(** The world after a filtered emission at level [lvl] of the text [s]:
    untouched below the threshold, one clock reading and one emission
    later otherwise. *)
Definition logWorld (logger : Logger) (lvl : Z) (s : string) (w : World) : World :=
  if lvl >=? level logger
  then after w (emissionTrace logger (clock w (ticks w)) lvl s)
  else w.

(** The world after the owned closer was closed outside the lock. *)
Definition closedWorld (logger : Logger) (w : World) : World :=
  {| clock := clock w; ticks := ticks w;
     trace := trace w ++ map EvClose (owned logger) |}.

Section ConservationVocabulary.
Context {Sink : Type}.
Variable write : Sink -> string -> Sink * (Z * option error).

(** What every state of a writer keeps, whatever calls the caller makes:
    the capacity chosen at construction bounds the queue; the payloads
    written, held by the worker, queued and not yet submitted are, in this
    order, the payloads of the program; every returned [Write] reported
    its length and no error; the sink is what the attempted writes made of
    it; a caller inside [Close] is at a [Close] call. *)
Definition conserved (program : list Op) (sink0 : Sink) (n : Z) (s : Sys Sink)
  : Prop :=
  capacity s = (if n <=? 0 then DEFAULT_QUEUE_SIZE else n) /\
  Z.of_nat (length (queue s)) <= capacity s /\
  (accepted s ++ pendingWrites (todo s))%list = pendingWrites program /\
  results s = map (fun d => (len d, @None error)) (accepted s) /\
  sink s = sinkAfter write sink0 (attempts s) /\
  (caller s = Waiting -> exists r, todo s = OpClose :: r).

End ConservationVocabulary.

(** The runtime error of a channel operation on the closed queue. *)
Definition panicText (op : Op) : string :=
  match op with
  | OpWrite _ => "send on closed channel"
  | OpClose => "close of closed channel"
  end.

(** Where the goroutines can stand while the program
    [N writes; Close; op; post] runs. *)
Definition phaseThen {Sink} (op : Op) (post : list Op) (s : Sys Sink) : Prop :=
  (caller s = Running /\
   (exists rest, todo s = (writesThenClose rest ++ op :: post)%list) /\
   queueClosed s = false /\
   (worker s = Receiving \/ exists m, worker s = Writing m)) \/
  (caller s = Waiting /\ todo s = OpClose :: op :: post /\
   queueClosed s = true /\
   worker s <> Finished /\ (worker s = Signalling -> queue s = [])) \/
  (caller s = Running /\ todo s = op :: post /\ queueClosed s = true /\
   worker s = Finished /\ queue s = []) \/
  (caller s = CallerPanicked (panicText op) /\ todo s = op :: post /\
   queueClosed s = true /\ worker s = Finished /\ queue s = []).

(** No goroutine can move. *)
Definition stuck {Sink} (write : Sink -> string -> Sink * (Z * option error))
  (s : Sys Sink) : Prop :=
  callerStep s = None /\ workerStep write s = None.

(** The HTTP sink as the wrapped writer of an asynchronous writer: its
    state is the list of transport events so far. *)
Definition httpSinkWrite (post : string -> string -> string -> PostResult)
  (w : HTTPLogWriter) (st : list HTTPEvent) (d : string)
  : list HTTPEvent * (Z * option error) :=
  let r := HTTPLogWriter_Write post w d in
  ((st ++ snd r)%list, fst r).

(** The requests of a transport trace (target, content type, body), and
    the number of response bodies it closed. *)
Fixpoint posts (tr : list HTTPEvent) : list (string * string * string) :=
  match tr with
  | [] => []
  | EvPost target ct body :: r => (target, ct, body) :: posts r
  | EvBodyClose :: r => posts r
  end.

Fixpoint bodyCloses (tr : list HTTPEvent) : nat :=
  match tr with
  | [] => O
  | EvPost _ _ _ :: r => bodyCloses r
  | EvBodyClose :: r => S (bodyCloses r)
  end.

Definition isResponse (r : PostResult) : bool :=
  match r with
  | Response _ => true
  | TransportError _ => false
  end.

(** The earlier revision's writer as a transition system: either
    goroutine may take the next step. *)
Definition step0 {Sink} (write : Sink -> string -> Sink * (Z * option error))
  (a a' : Rev0.AState Sink) : Prop :=
  Rev0.callerStep a = Some a' \/ Rev0.workerStep write a = Some a'.

Inductive reachable0 {Sink} (write : Sink -> string -> Sink * (Z * option error))
  (a0 : Rev0.AState Sink) : Rev0.AState Sink -> Prop :=
| reach0_start : reachable0 write a0 a0
| reach0_step a a' :
    reachable0 write a0 a -> step0 write a a' -> reachable0 write a0 a'.

(** What the earlier revision's writer keeps while [N writes; Close]
    runs: until the goroutine has evaluated [!w.closing] nothing was
    written; it stands at its signal, or has ended, only if it found the
    flag set at that evaluation, so nothing was written either; and the
    program is over only when it has ended. *)
Definition inv0 {Sink} (sink0 : Sink) (a : Rev0.AState Sink) : Prop :=
  let s := Rev0.sys a in
  (Rev0.entered a = false ->
   worker s = Receiving /\ attempts s = [] /\ sink s = sink0) /\
  (worker s = Signalling \/ worker s = Finished ->
   attempts s = [] /\ sink s = sink0 /\ Rev0.closing a = true) /\
  ((caller s = Running /\ (exists rest, todo s = writesThenClose rest) /\
    worker s <> Finished) \/
   (caller s = Waiting /\ todo s = [OpClose] /\ worker s <> Finished) \/
   (caller s = Running /\ todo s = [] /\ worker s = Finished)).

(** A schedule followed as far as it goes. *)
Definition followed {Sink} (write : Sink -> string -> Sink * (Z * option error))
  (turns : list Rev0.Turn) (a : Rev0.AState Sink) : Rev0.AState Sink :=
  match Rev0.follow write turns a with
  | Some a' => a'
  | None => a
  end.

(** ** The earlier revision's logger ([log.go])

    The logger of the earlier revision has no mutex: the emission
    functions call [logger.formatter.Format] directly, which is a call on
    a nil interface when there is no formatter; [New] does not look for an
    [io.WriteCloser]; [Close] closes without a lock; and none of the
    [Fatal] and [Panic] functions closes anything. *)
Module Rev0Logger.

Definition nilDereference : PanicValue :=
  PanicRuntime "invalid memory address or nil pointer dereference".

Definition New (w : option Writer) (loglevel : Z) : Logger :=
  {| level := loglevel; path := ""; fname := "";
     writer := w; writeCloser := None;
     formatter := Some Rev0.DefaultLogFormatter |}.

Definition SetFormatter (logger : Logger) (f : option LogFormatter) : Logger :=
  {| level := level logger; path := path logger; fname := fname logger;
     writer := writer logger; writeCloser := writeCloser logger;
     formatter := f |}.

Definition Logger_Close (logger : Logger) : M unit := closeOwned logger.

(** [logger.formatter.Format(time.Now(), lvl, s)]: the argument is
    evaluated, then the method is called. *)
Definition callFormatter (logger : Logger) (lvl : Z) (s : string) : M string :=
  now <- time_Now ;;
  match formatter logger with
  | Some f => emit (EvFormat now lvl s) ;;; ret (Format f now lvl s)
  | None => panic nilDereference
  end.

Section Emission.
Context {F : Fmt}.

Definition Print (logger : Logger) (v : list iface) : M unit :=
  let s := Sprint v in
  msg <- callFormatter logger (level logger) s ;;
  writeOut logger msg.

Definition Println (logger : Logger) (v : list iface) : M unit :=
  let s := Sprintln v in
  msg <- callFormatter logger (level logger) s ;;
  writeOut logger msg.

Definition Printf (logger : Logger) (format : string) (v : list iface) : M unit :=
  let s := Sprintf format v in
  msg <- callFormatter logger (level logger) s ;;
  writeOut logger msg.

Definition Log (logger : Logger) (loglevel : Z) (v : list iface) : M unit :=
  if loglevel >=? level logger then
    let s := Sprint v in
    msg <- callFormatter logger loglevel s ;;
    writeOut logger msg
  else ret tt.

Definition Logf (logger : Logger) (loglevel : Z) (format : string) (v : list iface)
  : M unit :=
  if loglevel >=? level logger then
    let s := Sprintf format v in
    msg <- callFormatter logger loglevel s ;;
    writeOut logger msg
  else ret tt.

Definition Logln (logger : Logger) (loglevel : Z) (v : list iface) : M unit :=
  if loglevel >=? level logger then
    let s := Sprintln v in
    msg <- callFormatter logger loglevel s ;;
    writeOut logger msg
  else ret tt.

Definition Fatal (logger : Logger) (v : list iface) : M unit :=
  Log logger Rev0.LOG_LEVEL_FATAL v ;;; os_Exit 1.

Definition Fatalf (logger : Logger) (format : string) (v : list iface) : M unit :=
  Logf logger Rev0.LOG_LEVEL_FATAL format v ;;; os_Exit 1.

Definition Fatalln (logger : Logger) (v : list iface) : M unit :=
  Logln logger Rev0.LOG_LEVEL_FATAL v ;;; os_Exit 1.

Definition Panic (logger : Logger) (v : list iface) : M unit :=
  Log logger Rev0.LOG_LEVEL_FATAL v ;;; panic PanicNil.

Definition Panicf (logger : Logger) (format : string) (v : list iface) : M unit :=
  Logf logger Rev0.LOG_LEVEL_FATAL format v ;;; panic PanicNil.

Definition Panicln (logger : Logger) (v : list iface) : M unit :=
  Logln logger Rev0.LOG_LEVEL_FATAL v ;;; panic PanicNil.

End Emission.

End Rev0Logger.

(** The lock events of a trace. *)
Fixpoint lockEvents (tr : list Event) : list Event :=
  match tr with
  | [] => []
  | EvLock :: r => EvLock :: lockEvents r
  | EvUnlock :: r => EvUnlock :: lockEvents r
  | _ :: r => lockEvents r
  end.

(** A trace without its lock events. *)
Fixpoint unlocked (tr : list Event) : list Event :=
  match tr with
  | [] => []
  | EvLock :: r => unlocked r
  | EvUnlock :: r => unlocked r
  | e :: r => e :: unlocked r
  end.

(** The events of an emission that are not lock events. *)
Definition bareEmission (logger : Logger) (t : Time) (lvl : Z) (s : string)
  : list Event :=
  (match formatter logger with
   | Some _ => [EvFormat t lvl s]
   | None => []
   end
   ++ match writer logger with
      | Some snk => [EvWrite snk (recordText logger t lvl s)]
      | None => []
      end)%list.


(** The calls a logger's trace makes on its writer, followed by the
    writer's [Close]: the program the asynchronous writer behind the
    logger is given. *)
Definition writerProgram (tr : list Event) : list Op :=
  writesThenClose (writes tr).

(** * Properties *)

(** ** Levels and their names *)

Lemma upperByte_ascii (c : ascii) : byte_lt (upperByte c) 128 = byte_lt c 128.
Proof. destruct c as [[] [] [] [] [] [] [] []]; reflexivity. Qed.

Lemma isASCII_upperBytes (s : string) : isASCII (upperBytes s) = isASCII s.
Proof.
  induction s as [|c r IH]; simpl; [reflexivity|].
  now rewrite upperByte_ascii, IH.
Qed.

Lemma upperBytes_no_lower (s : string) : hasLower s = false -> upperBytes s = s.
Proof.
  induction s as [|c r IH]; simpl; [reflexivity|].
  intros H. apply orb_false_elim in H as [Hc Hr].
  unfold upperByte. rewrite Hc, (IH Hr). reflexivity.
Qed.

(** On a string of ASCII bytes [ToUpper] is the byte-wise upper-casing. *)
Lemma ToUpper_ascii (mapUpper : string -> string) (s : string) :
  isASCII s = true -> ToUpper mapUpper s = upperBytes s.
Proof.
  intros H. unfold ToUpper. rewrite H.
  destruct (hasLower s) eqn:E; [reflexivity|].
  symmetry. now apply upperBytes_no_lower.
Qed.

(** A string whose byte-wise upper-casing is a level name is upper-cased
    to that name, whatever the Unicode path does. *)
Lemma ToUpper_of_upperBytes (mapUpper : string -> string) (s name : string) :
  isASCII name = true -> upperBytes s = name -> ToUpper mapUpper s = name.
Proof.
  intros Hn Hu. rewrite ToUpper_ascii; [assumption|].
  rewrite <- isASCII_upperBytes, Hu. exact Hn.
Qed.

Lemma String2LogLevel_cases (mapUpper : string -> string) (str : string) :
  let u := ToUpper mapUpper str in
  (u = "TRACE" /\ String2LogLevel mapUpper str = LOG_LEVEL_TRACE) \/
  (u = "DEBUG" /\ String2LogLevel mapUpper str = LOG_LEVEL_DEBUG) \/
  (u = "INFO" /\ String2LogLevel mapUpper str = LOG_LEVEL_INFO) \/
  (u = "WARN" /\ String2LogLevel mapUpper str = LOG_LEVEL_WARN) \/
  (u = "ERROR" /\ String2LogLevel mapUpper str = LOG_LEVEL_WARN) \/
  (u = "FATAL" /\ String2LogLevel mapUpper str = LOG_LEVEL_FATAL) \/
  (~ In u level_names /\ String2LogLevel mapUpper str = -1).
Proof.
  unfold String2LogLevel. simpl.
  destruct (String.eqb_spec (ToUpper mapUpper str) "TRACE") as [E1|N1]; [now left|].
  destruct (String.eqb_spec (ToUpper mapUpper str) "DEBUG") as [E2|N2];
    [now right; left|].
  destruct (String.eqb_spec (ToUpper mapUpper str) "INFO") as [E3|N3];
    [now right; right; left|].
  destruct (String.eqb_spec (ToUpper mapUpper str) "WARN") as [E4|N4];
    [now right; right; right; left|].
  destruct (String.eqb_spec (ToUpper mapUpper str) "ERROR") as [E5|N5];
    [now right; right; right; right; left|].
  destruct (String.eqb_spec (ToUpper mapUpper str) "FATAL") as [E6|N6];
    [now right; right; right; right; right; left|].
  do 6 right. split; [|reflexivity].
  unfold level_names. simpl. intros H.
  repeat (destruct H as [H|H]; [symmetry in H; contradiction|]). exact H.
Qed.

(** C7.  Level to string to level is the identity on TRACE, DEBUG, INFO,
    WARN and FATAL: for each of these five levels, parsing the name that
    [LogLevel2String] gives returns the level itself.  (ERROR is left
    out: see [error_name_parses_as_warn].) *)
Theorem level_string_round_trip (mapUpper : string -> string) (l : Z) :
  In l [LOG_LEVEL_TRACE; LOG_LEVEL_DEBUG; LOG_LEVEL_INFO;
        LOG_LEVEL_WARN; LOG_LEVEL_FATAL] ->
  String2LogLevel mapUpper (LogLevel2String l) = l.
Proof.
  intros H. simpl in H.
  repeat (destruct H as [H|H]; [subst l; reflexivity|]).
  contradiction.
Qed.

Lemma level_string_round_trip_witness :
  String2LogLevel (fun s => s) (LogLevel2String LOG_LEVEL_FATAL) = LOG_LEVEL_FATAL.
Proof.
  apply (level_string_round_trip (fun s => s) LOG_LEVEL_FATAL).
  simpl. right; right; right; right; left. reflexivity.
Defined.

(** The round trip from ERROR ends at WARN. *)
Lemma error_name_parses_as_warn (mapUpper : string -> string) :
  String2LogLevel mapUpper (LogLevel2String LOG_LEVEL_ERROR) = LOG_LEVEL_WARN.
Proof. reflexivity. Qed.

(** C8.  The parser maps ["ERROR"] to [LOG_LEVEL_WARN], not to
    [LOG_LEVEL_ERROR], in every letter case: whenever the upper-cased
    input is ["ERROR"], and so for each of the 32 spellings of the word
    in upper and lower case letters, and for every string whose bytes
    upper-case to it.  For every string that upper-cases to none of the
    six names the result is the sentinel -1, which is no level; the
    function has a result on every input. *)
Theorem String2LogLevel_error_is_warn_unknown_is_sentinel
  (mapUpper : string -> string) :
  (forall str, ToUpper mapUpper str = "ERROR" ->
               String2LogLevel mapUpper str = LOG_LEVEL_WARN) /\
  (forall str, upperBytes str = "ERROR" ->
               String2LogLevel mapUpper str = LOG_LEVEL_WARN) /\
  Forall (fun str => String2LogLevel mapUpper str = LOG_LEVEL_WARN)
         (case_variants "ERROR") /\
  length (case_variants "ERROR") = 32%nat /\
  LOG_LEVEL_WARN <> LOG_LEVEL_ERROR /\
  (forall str, ~ In (ToUpper mapUpper str) level_names ->
               String2LogLevel mapUpper str = -1) /\
  ~ In (-1) levels.
Proof.
  assert (HE : forall str, ToUpper mapUpper str = "ERROR" ->
                           String2LogLevel mapUpper str = LOG_LEVEL_WARN).
  { intros str H. unfold String2LogLevel. simpl. rewrite H. reflexivity. }
  repeat split.
  - exact HE.
  - intros str H. apply HE. now apply ToUpper_of_upperBytes.
  - repeat constructor.
  - discriminate.
  - intros str H.
    destruct (String2LogLevel_cases mapUpper str)
      as [[E _]|[[E _]|[[E _]|[[E _]|[[E _]|[[E _]|[_ R]]]]]]];
      try exact R; exfalso; apply H; rewrite E; simpl; tauto.
  - unfold levels. simpl. intros H.
    repeat (destruct H as [H|H]; [discriminate H|]). exact H.
Qed.

(** ** The default record format *)

Lemma all_from_spec (p : Z -> bool) (fuel : nat) :
  forall x0, all_from fuel x0 p = true ->
  forall x, x0 <= x < x0 + Z.of_nat fuel -> p x = true.
Proof.
  induction fuel as [|f IH]; intros x0 H x Hx.
  - simpl in Hx. lia.
  - simpl in H. apply andb_prop in H as [Hp Hr].
    destruct (Z.eq_dec x x0) as [->|Hne]; [exact Hp|].
    apply (IH (x0 + 1) Hr). lia.
Qed.

Lemma appendInt_2_digits (x : Z) :
  0 <= x < 100 -> shaped "dd" (appendInt x 2) = true.
Proof.
  intros H.
  apply (all_from_spec (fun x => shaped "dd" (appendInt x 2)) (Z.to_nat 100) 0).
  - vm_compute. reflexivity.
  - rewrite Z2Nat.id; lia.
Qed.

Lemma appendInt_4_digits (x : Z) :
  0 <= x < 10000 -> shaped "dddd" (appendInt x 4) = true.
Proof.
  intros H.
  apply (all_from_spec (fun x => shaped "dddd" (appendInt x 4))
                        (Z.to_nat 10000) 0).
  - vm_compute. reflexivity.
  - rewrite Z2Nat.id; lia.
Qed.

(** Within an era the day of the year stays below 366, the month lies in
    1..12 and the day of the month in 1..31. *)
Lemma dayOfYear_bounds (doe : Z) :
  0 <= doe < 146097 -> 0 <= dayOfYear doe <= 365.
Proof.
  intros H. unfold dayOfYear, yearOfEra.
  Z.div_mod_to_equations; lia.
Qed.

Lemma month_day_bounds (doe : Z) :
  0 <= doe < 146097 ->
  1 <= monthOfEra doe <= 12 /\ 1 <= dayOfMonth doe <= 31.
Proof.
  intros H. pose proof (dayOfYear_bounds doe H) as D.
  unfold monthOfEra, dayOfMonth, monthIndex.
  set (y := dayOfYear doe) in *. clearbody y.
  destruct (Z.ltb_spec ((5 * y + 2) / 153) 10);
    Z.div_mod_to_equations; lia.
Qed.

Lemma civil_month_day (days : Z) :
  1 <= month (civil days) <= 12 /\ 1 <= day (civil days) <= 31.
Proof.
  unfold civil. simpl.
  apply month_day_bounds. unfold dayOfEra. apply Z.mod_pos_bound. lia.
Qed.

Lemma clock_bounds (t : Time) :
  0 <= hour (Time_Clock t) < 24 /\
  0 <= minute (Time_Clock t) < 60 /\
  0 <= second (Time_Clock t) < 60.
Proof.
  unfold Time_Clock. simpl.
  pose proof (Z.mod_pos_bound (localSec t) 86400 ltac:(lia)) as H.
  set (s := localSec t mod 86400) in *.
  pose proof (Z.mod_pos_bound s 3600 ltac:(lia)).
  pose proof (Z.mod_pos_bound s 60 ltac:(lia)).
  repeat split; try lia.
  - apply Z.div_pos; lia.
  - apply Z.div_lt_upper_bound; lia.
  - apply Z.div_pos; lia.
  - apply Z.div_lt_upper_bound; lia.
Qed.

Lemma shaped_app (p1 p2 s1 s2 : string) :
  shaped p1 s1 = true -> shaped p2 s2 = true ->
  shaped (p1 ++ p2) (s1 ++ s2) = true.
Proof.
  revert s1. induction p1 as [|p pr IH]; intros [|c sr] H1 H2; simpl in *;
    try discriminate; [exact H2|].
  apply andb_prop in H1 as [Hc Hr]. rewrite Hc. simpl. now apply IH.
Qed.

(** The time of a record, after the year: two digits for each of month,
    day, hour, minute and second between the separators, then the zone
    abbreviation of UTC. *)
Lemma Time_Format_UTC_shape (t : Time) :
  exists rest,
    Time_Format (Time_UTC t) layout
    = (appendInt (year (Time_Date (Time_UTC t))) 4 ++ rest)%string /\
    shaped "-dd-ddTdd:dd:dd (UTC)" rest = true.
Proof.
  set (u := Time_UTC t).
  destruct (civil_month_day (localSec u / 86400)) as [Hm Hd].
  destruct (clock_bounds u) as (Hh & Hmi & Hs).
  exists ("-" ++ appendInt (month (Time_Date u)) 2 ++ "-"
              ++ appendInt (day (Time_Date u)) 2 ++ "T"
              ++ appendInt (hour (Time_Clock u)) 2 ++ ":"
              ++ appendInt (minute (Time_Clock u)) 2 ++ ":"
              ++ appendInt (second (Time_Clock u)) 2 ++ " (UTC)")%string.
  split.
  - unfold Time_Format, layout. simpl. reflexivity.
  - change "-dd-ddTdd:dd:dd (UTC)"
      with ("-" ++ "dd" ++ "-" ++ "dd" ++ "T" ++ "dd" ++ ":" ++ "dd" ++ ":"
                ++ "dd" ++ " (UTC)")%string.
    repeat (apply shaped_app;
            [first [reflexivity
                   | apply appendInt_2_digits; unfold Time_Date; lia] |]).
    reflexivity.
Qed.



(** The record of the reference instant, byte for byte. *)
Example default_format_reference :
  Format DefaultLogFormatter referenceTime LOG_LEVEL_INFO "Hello World!"
  = ("INFO: 2006-01-02T22:04:05 (UTC): Hello World!" ++ newline)%string.
Proof. vm_compute. reflexivity. Qed.

(** Outside the years 0..9999 the year field is wider than four
    characters: the first second of the year 10000. *)
Example default_format_year_10000 :
  Format DefaultLogFormatter {| unixSec := 253402300800; loc := utcLoc |}
         LOG_LEVEL_WARN "x"
  = ("WARN: 10000-01-01T00:00:00 (UTC): x" ++ newline)%string.
Proof. vm_compute. reflexivity. Qed.

(** ** Emission *)

Lemma emitAt_spec (logger : Logger) (lvl : Z) (s : string) (w : World) :
  emitAt logger lvl s w
  = (Returned tt, after w (emissionTrace logger (clock w (ticks w)) lvl s)).
Proof.
  unfold emitAt, Logger_Format, writeOut, Logger_Writer, emissionTrace,
    recordText, after, bind, time_Now, emit, ret.
  destruct (formatter logger), (writer logger); simpl;
    repeat rewrite <- app_assoc; reflexivity.
Qed.

Lemma writes_app (a b : list Event) : writes (a ++ b) = (writes a ++ writes b)%list.
Proof.
  induction a as [|e a IH]; simpl; [reflexivity|].
  destruct e; simpl; now rewrite ?IH.
Qed.

Lemma formats_app (a b : list Event) :
  formats (a ++ b) = (formats a ++ formats b)%list.
Proof.
  induction a as [|e a IH]; simpl; [reflexivity|].
  destruct e; simpl; now rewrite ?IH.
Qed.

Lemma closes_app (a b : list Event) : closes (a ++ b) = (closes a ++ closes b)%list.
Proof.
  induction a as [|e a IH]; simpl; [reflexivity|].
  destruct e; simpl; now rewrite ?IH.
Qed.

Lemma writes_emission (logger : Logger) (t : Time) (lvl : Z) (s : string) :
  writes (emissionTrace logger t lvl s)
  = match writer logger with
    | Some _ => [recordText logger t lvl s]
    | None => []
    end.
Proof.
  unfold emissionTrace.
  destruct (formatter logger), (writer logger); reflexivity.
Qed.

Lemma formats_emission (logger : Logger) (t : Time) (lvl : Z) (s : string) :
  formats (emissionTrace logger t lvl s)
  = match formatter logger with
    | Some _ => [(t, lvl, s)]
    | None => []
    end.
Proof.
  unfold emissionTrace.
  destruct (formatter logger), (writer logger); reflexivity.
Qed.

Lemma closes_emission (logger : Logger) (t : Time) (lvl : Z) (s : string) :
  closes (emissionTrace logger t lvl s) = [].
Proof.
  unfold emissionTrace.
  destruct (formatter logger), (writer logger); reflexivity.
Qed.

(** Below the threshold a filtered call returns at once and leaves the
    world as it was: no clock reading, no lock, no formatting, no write. *)
Lemma filtered_below (logger : Logger) (lvl : Z) (s : string) (w : World) :
  lvl < level logger ->
  (if lvl >=? level logger then emitAt logger lvl s else ret tt) w
  = (Returned tt, w).
Proof.
  intros H. destruct (Z.geb_spec lvl (level logger)); [lia|reflexivity].
Qed.

Lemma filtered_above (logger : Logger) (lvl : Z) (s : string) (w : World) :
  level logger <= lvl ->
  (if lvl >=? level logger then emitAt logger lvl s else ret tt) w
  = (Returned tt, after w (emissionTrace logger (clock w (ticks w)) lvl s)).
Proof.
  intros H. destruct (Z.geb_spec lvl (level logger)); [|lia].
  apply emitAt_spec.
Qed.

(** C1.  Level-threshold filtering.  For every logger, level [L],
    operands and world:
    - when [L] is strictly below the logger's threshold, [Log], [Logf] and
      [Logln] return with the world unchanged (no clock reading, no
      formatter call, no write);
    - when [L] is at or above the threshold and the logger has a sink,
      each of them returns after exactly one write to that sink, of the
      formatted record;
    - the wrappers [Trace] .. [Error] (plain, [f] and [ln]) are these
      three functions at their fixed level, so both facts hold for them;
    - a logger made by [New] at INFO over a sink, called with [Trace],
      [Debug], [Info], [Warn], [Error] once each, writes exactly three
      records, labelled INFO, WARN and ERROR, in that order. *)
Theorem level_threshold_filtering {F : Fmt}
  (logger : Logger) (L : Z) (v : list iface) (format : string) (w : World) :
  (L < level logger ->
   Log logger L v w = (Returned tt, w) /\
   Logf logger L format v w = (Returned tt, w) /\
   Logln logger L v w = (Returned tt, w)) /\
  (level logger <= L ->
   forall snk, writer logger = Some snk ->
   let now := clock w (ticks w) in
   (fst (Log logger L v w) = Returned tt /\
    writes (trace (snd (Log logger L v w)))
    = (writes (trace w) ++ [recordText logger now L (Sprint v)])%list) /\
   (fst (Logf logger L format v w) = Returned tt /\
    writes (trace (snd (Logf logger L format v w)))
    = (writes (trace w) ++ [recordText logger now L (Sprintf format v)])%list) /\
   (fst (Logln logger L v w) = Returned tt /\
    writes (trace (snd (Logln logger L v w)))
    = (writes (trace w) ++ [recordText logger now L (Sprintln v)])%list)) /\
  (Forall (fun p => fst p logger v = Log logger (snd p) v)
     [(Trace, LOG_LEVEL_TRACE); (Debug, LOG_LEVEL_DEBUG);
      (Info, LOG_LEVEL_INFO); (Warn, LOG_LEVEL_WARN);
      (Error, LOG_LEVEL_ERROR)] /\
   Forall (fun p => fst p logger format v = Logf logger (snd p) format v)
     [(Tracef, LOG_LEVEL_TRACE); (Debugf, LOG_LEVEL_DEBUG);
      (Infof, LOG_LEVEL_INFO); (Warnf, LOG_LEVEL_WARN);
      (Errorf, LOG_LEVEL_ERROR)] /\
   Forall (fun p => fst p logger v = Logln logger (snd p) v)
     [(Traceln, LOG_LEVEL_TRACE); (Debugln, LOG_LEVEL_DEBUG);
      (Infoln, LOG_LEVEL_INFO); (Warnln, LOG_LEVEL_WARN);
      (Errorln, LOG_LEVEL_ERROR)]) /\
  (forall snk clk v1 v2 v3 v4 v5,
      let r := scenarioA (New (Some snk) LOG_LEVEL_INFO) v1 v2 v3 v4 v5
                 (fresh clk) in
      fst r = Returned tt /\
      writes (trace (snd r))
      = [("INFO: " ++ Time_Format (Time_UTC (clk 0%nat)) layout ++ ": "
            ++ Sprint v3 ++ newline)%string;
         ("WARN: " ++ Time_Format (Time_UTC (clk 1%nat)) layout ++ ": "
            ++ Sprint v4 ++ newline)%string;
         ("ERROR: " ++ Time_Format (Time_UTC (clk 2%nat)) layout ++ ": "
            ++ Sprint v5 ++ newline)%string] /\
      map (fun e => snd (fst e)) (formats (trace (snd r)))
      = [LOG_LEVEL_INFO; LOG_LEVEL_WARN; LOG_LEVEL_ERROR]).
Proof.
  split; [|split; [|split]].
  - intros H. repeat split; apply filtered_below; exact H.
  - intros H snk Hs now.
    assert (K : forall s,
               let r := (if L >=? level logger then emitAt logger L s else ret tt) w in
               fst r = Returned tt /\
               writes (trace (snd r))
               = (writes (trace w) ++ [recordText logger now L s])%list).
    { intros s. cbv zeta. rewrite (filtered_above logger L s w H). simpl.
      rewrite writes_app, writes_emission, Hs. split; reflexivity. }
    repeat split; apply K.
  - repeat split; repeat constructor.
  - intros snk clk v1 v2 v3 v4 v5. cbv zeta.
    repeat split.
Qed.

(** Scenario A on string operands, the clock ticking once a second. *)
Example scenarioA_strings :
  writes (trace (snd (scenarioA (New (Some (UserWriter 0 false)) LOG_LEVEL_INFO)
                        ["This is a trace message."]
                        ["This is a debug message."]
                        ["Hello World!"]
                        ["This is a warnning message."]
                        ["This is an error message."]
                        (fresh tickingClock))))
  = [("INFO: 2006-01-02T22:04:05 (UTC): Hello World!" ++ newline)%string;
     ("WARN: 2006-01-02T22:04:06 (UTC): This is a warnning message."
        ++ newline)%string;
     ("ERROR: 2006-01-02T22:04:07 (UTC): This is an error message."
        ++ newline)%string].
Proof. vm_compute. reflexivity. Qed.

(** C10.  [Print], [Printf] and [Println] do not compare anything with the
    threshold: for every logger, whatever its threshold, each call reads
    the clock, runs the formatter under the lock and writes the sink once,
    and the level given to the formatter is the logger's threshold
    [level logger] itself.  So with a sink there is exactly one write per
    call, of the record formatted at that level, and a logger whose
    threshold is DEBUG prints a record labelled DEBUG, one at FATAL a
    record labelled FATAL. *)
Theorem print_bypasses_filter {F : Fmt}
  (logger : Logger) (v : list iface) (format : string) (w : World) :
  let now := clock w (ticks w) in
  Print logger v w
  = (Returned tt, after w (emissionTrace logger now (level logger) (Sprint v))) /\
  Printf logger format v w
  = (Returned tt,
     after w (emissionTrace logger now (level logger) (Sprintf format v))) /\
  Println logger v w
  = (Returned tt, after w (emissionTrace logger now (level logger) (Sprintln v))) /\
  (forall snk, writer logger = Some snk ->
     writes (trace (snd (Print logger v w)))
     = (writes (trace w)
          ++ [recordText logger now (level logger) (Sprint v)])%list /\
     writes (trace (snd (Printf logger format v w)))
     = (writes (trace w)
          ++ [recordText logger now (level logger) (Sprintf format v)])%list /\
     writes (trace (snd (Println logger v w)))
     = (writes (trace w)
          ++ [recordText logger now (level logger) (Sprintln v)])%list) /\
  (forall f, formatter logger = Some f ->
     formats (trace (snd (Print logger v w)))
     = (formats (trace w) ++ [(now, level logger, Sprint v)])%list /\
     formats (trace (snd (Printf logger format v w)))
     = (formats (trace w) ++ [(now, level logger, Sprintf format v)])%list /\
     formats (trace (snd (Println logger v w)))
     = (formats (trace w) ++ [(now, level logger, Sprintln v)])%list) /\
  (forall snk lvl,
     writes (trace (snd (Print (New (Some snk) lvl) v w)))
     = (writes (trace w)
          ++ [(LogLevel2String lvl ++ ": "
                 ++ Time_Format (Time_UTC now) layout ++ ": "
                 ++ Sprint v ++ newline)%string])%list).
Proof.
  intros now.
  assert (P1 : Print logger v w
               = (Returned tt,
                  after w (emissionTrace logger now (level logger) (Sprint v))))
    by apply emitAt_spec.
  assert (P2 : Printf logger format v w
               = (Returned tt,
                  after w (emissionTrace logger now (level logger)
                             (Sprintf format v))))
    by apply emitAt_spec.
  assert (P3 : Println logger v w
               = (Returned tt,
                  after w (emissionTrace logger now (level logger) (Sprintln v))))
    by apply emitAt_spec.
  split; [exact P1|]. split; [exact P2|]. split; [exact P3|].
  split; [|split].
  - intros snk Hs. rewrite P1, P2, P3. simpl.
    rewrite !writes_app, !writes_emission, Hs. repeat split.
  - intros f Hf. rewrite P1, P2, P3. simpl.
    rewrite !formats_app, !formats_emission, Hf. repeat split.
  - intros snk lvl.
    change (Print (New (Some snk) lvl) v w)
      with (emitAt (New (Some snk) lvl) lvl (Sprint v) w).
    rewrite emitAt_spec. simpl. rewrite writes_app. reflexivity.
Qed.

(** A logger whose threshold is DEBUG prints under the label DEBUG. *)
Example print_labels_with_threshold :
  writes (trace (snd (Print (New (Some (UserWriter 0 false)) LOG_LEVEL_DEBUG)
                        ["Hello World!"] (fresh tickingClock))))
  = [("DEBUG: 2006-01-02T22:04:05 (UTC): Hello World!" ++ newline)%string].
Proof. vm_compute. reflexivity. Qed.

(** ** Fatal and Panic *)

Lemma closeOwned_spec (logger : Logger) (w : World) :
  closeOwned logger w
  = (Returned tt,
     {| clock := clock w; ticks := ticks w;
        trace := trace w ++ map EvClose (owned logger) |}).
Proof.
  unfold closeOwned, owned. destruct (writeCloser logger); simpl.
  - reflexivity.
  - unfold ret. rewrite app_nil_r. destruct w; reflexivity.
Qed.

Lemma closes_map_EvClose (l : list Writer) : closes (map EvClose l) = l.
Proof. induction l as [|x l IH]; simpl; congruence. Qed.

(** A filtered emission returns, and closes nothing. *)
Lemma filtered_returns (logger : Logger) (lvl : Z) (s : string) (w : World) :
  exists w',
    (if lvl >=? level logger then emitAt logger lvl s else ret tt) w
    = (Returned tt, w') /\
    closes (trace w') = closes (trace w).
Proof.
  destruct (lvl >=? level logger).
  - rewrite emitAt_spec. eexists; split; [reflexivity|]. unfold after. simpl.
    rewrite closes_app, closes_emission. apply app_nil_r.
  - eexists; split; reflexivity.
Qed.

Lemma bind_returned {A B} (m : M A) (k : A -> M B) (a : A) (w w' : World) :
  m w = (Returned a, w') -> bind m k w = k a w'.
Proof. intros H. unfold bind. now rewrite H. Qed.

(** Log, close what is owned, then end with [final]. *)
Lemma log_close_end {A} (logger : Logger) (lvl : Z) (s : string)
      (final : M A) (o : Outcome A) (w : World) :
  (forall w0, final w0 = (o, w0)) ->
  let r := ((if lvl >=? level logger then emitAt logger lvl s else ret tt) ;;;
            closeOwned logger ;;; final) w in
  fst r = o /\
  closes (trace (snd r)) = (closes (trace w) ++ owned logger)%list.
Proof.
  intros Hf. cbv zeta.
  destruct (filtered_returns logger lvl s w) as (w' & E & C).
  rewrite (bind_returned _ _ tt w w' E).
  rewrite (bind_returned _ _ tt _ _ (closeOwned_spec logger w')).
  rewrite Hf. simpl.
  rewrite closes_app, closes_map_EvClose, C. split; reflexivity.
Qed.


(** C5, as the code has it for [Fatal].  [Fatal] ends the process with
    status 1 whatever the threshold is, but it closes nothing: the closers
    closed after the call are those closed before it, also when the logger
    owns one.  (Its five siblings do close it first.) *)
Theorem Fatal_exits_without_closing {F : Fmt}
  (logger : Logger) (v : list iface) (w : World) :
  fst (Fatal logger v w) = Exited 1 /\
  closes (trace (snd (Fatal logger v w))) = closes (trace w).
Proof.
  unfold Fatal.
  change (Log logger LOG_LEVEL_FATAL v)
    with (if LOG_LEVEL_FATAL >=? level logger
          then emitAt logger LOG_LEVEL_FATAL (Sprint v) else ret tt).
  destruct (filtered_returns logger LOG_LEVEL_FATAL (Sprint v) w) as (w' & E & C).
  unfold bind. rewrite E. simpl. split; [reflexivity|exact C].
Qed.

(** On a file logger [Fatal] writes the record and exits with the file
    still open, where [Fatalf] closes it first. *)
Example Fatal_on_file_logger :
  let r := Fatal fileLogger ["disk full"] (fresh tickingClock) in
  fst r = Exited 1 /\
  writes (trace (snd r))
  = [("FATAL: 2006-01-02T22:04:05 (UTC): disk full" ++ newline)%string] /\
  closes (trace (snd r)) = [].
Proof. vm_compute. repeat split. Qed.

Example Fatalf_on_file_logger :
  closes (trace (snd (Fatalf fileLogger "disk full" [] (fresh tickingClock))))
  = [FileWriter 3].
Proof. vm_compute. reflexivity. Qed.

(** ** The HTTP sink *)

(** C3.  [HTTPLogWriter.Write], for every outcome of the POST:
    - a transport error is returned as the error of the write, with a
      count of 0 (there is no response, so no body to release);
    - a response whose status is not 200 gives a non-nil error and a count
      of 0, although the POST was transmitted, and the body is closed;
    - a response with status 200 gives [len(data)] and a nil error, and
      the body is closed;
    so the write succeeds exactly when the response has status 200, and
    the body of every response is closed once, after the single POST of
    the data with content type [html/text]. *)
Theorem http_write_fails_unless_200
  (post : string -> string -> string -> PostResult)
  (w : HTTPLogWriter) (data : string) :
  let r := HTTPLogWriter_Write post w data in
  let sent := EvPost (url w) "html/text" data in
  (forall e, post (url w) "html/text" data = TransportError e ->
             fst r = (0, Some e) /\ snd r = [sent]) /\
  (forall code, post (url w) "html/text" data = Response code ->
                code <> http_StatusOK ->
                fst r = (0, Some (errors_New (statusErrorText code))) /\
                snd r = [sent; EvBodyClose]) /\
  (post (url w) "html/text" data = Response http_StatusOK ->
   fst r = (len data, None) /\ snd r = [sent; EvBodyClose]) /\
  (snd (fst r) = None <->
   post (url w) "html/text" data = Response http_StatusOK).
Proof.
  cbv zeta. unfold HTTPLogWriter_Write.
  destruct (post (url w) "html/text" data) as [e|code] eqn:E.
  - split; [|split; [|split]].
    + intros e0 H0. inversion H0; subst. split; reflexivity.
    + intros c H0. discriminate H0.
    + intros H0. discriminate H0.
    + simpl. split; intros H0; discriminate H0.
  - destruct (Z.eqb_spec code http_StatusOK) as [->|Hne]; simpl;
      (split; [|split; [|split]]).
    + intros e0 H0. discriminate H0.
    + intros c H0 Hc. inversion H0; subst. contradiction.
    + intros _. split; reflexivity.
    + split; reflexivity.
    + intros e0 H0. discriminate H0.
    + intros c H0 _. inversion H0; subst. split; reflexivity.
    + intros H0. inversion H0; subst. contradiction.
    + split; intros H0; [discriminate H0|].
      inversion H0; subst. contradiction.
Qed.

(** Scenario C: a server that answers 500. *)
Example http_write_500 :
  HTTPLogWriter_Write (fun _ _ _ => Response 500)
                      {| url := "http://example.com:8080/log" |} "INFO: x"
  = ((0, Some (errors_New "HTTPLogWriter: %!s(int=500) error!")),
     [EvPost "http://example.com:8080/log" "html/text" "INFO: x"; EvBodyClose]).
Proof. vm_compute. reflexivity. Qed.

(** ** The file logger *)

(** C9.  [NewFileLogger], for every directory, file name and level, and
    every behaviour of the operating system, returns to its caller (it
    neither panics nor exits):
    - when the directory cannot be created, the result is a nil logger
      and that error, and no file is opened;
    - when the file cannot be opened, the result is a nil logger and that
      error;
    - otherwise the result is a logger over the opened file, which is
      both its sink and its owned closer, and a nil error; the file was
      opened at [logpath/fname.log], where an empty [fname] stands for the
      base name of the program, with the flags create, write-only and
      append. *)
Theorem NewFileLogger_returns_errors
  (os : OS) (logpath fname0 : string) (loglevel : Z) :
  let r := NewFileLogger os logpath fname0 loglevel in
  let name := if String.eqb fname0 "" then path_Base (Args0 os) else fname0 in
  let filepath := (logpath ++ "/" ++ name ++ ".log")%string in
  let flag := Z.lor (Z.lor O_CREATE O_WRONLY) O_APPEND in
  (exists res, fst r = Returned res) /\
  (forall e, MkdirAll os logpath perm0750 = Some e ->
             fst r = Returned (None, Some e) /\
             snd r = [EvMkdirAll logpath perm0750]) /\
  (MkdirAll os logpath perm0750 = None ->
   forall e, OpenFile os filepath flag perm0640 = inr e ->
             fst r = Returned (None, Some e)) /\
  (MkdirAll os logpath perm0750 = None ->
   forall file, OpenFile os filepath flag perm0640 = inl file ->
     exists logger,
       fst r = Returned (Some logger, None) /\
       writer logger = Some (FileWriter file) /\
       writeCloser logger = Some (FileWriter file) /\
       level logger = loglevel /\
       path logger = logpath /\
       fname logger = name /\
       snd r = [EvMkdirAll logpath perm0750;
                EvOpenFile filepath flag perm0640]) /\
  (Z.land flag O_CREATE = O_CREATE /\
   Z.land flag O_APPEND = O_APPEND /\
   Z.land flag 3 = O_WRONLY).
Proof.
  cbv zeta. unfold NewFileLogger.
  assert (Hflag : Z.land (Z.lor (Z.lor O_CREATE O_WRONLY) O_APPEND) O_CREATE
                  = O_CREATE /\
                  Z.land (Z.lor (Z.lor O_CREATE O_WRONLY) O_APPEND) O_APPEND
                  = O_APPEND /\
                  Z.land (Z.lor (Z.lor O_CREATE O_WRONLY) O_APPEND) 3
                  = O_WRONLY)
    by (repeat split; reflexivity).
  destruct (MkdirAll os logpath perm0750) as [e|] eqn:Em.
  - split; [|split; [|split; [|split]]]; try exact Hflag.
    + eexists; reflexivity.
    + intros e0 H0. inversion H0; subst. split; reflexivity.
    + intros H0. discriminate H0.
    + intros H0. discriminate H0.
  - set (name := if String.eqb fname0 "" then path_Base (Args0 os) else fname0).
    destruct (OpenFile os _ _ perm0640) as [file|e] eqn:Eo;
      (split; [|split; [|split; [|split]]]); try exact Hflag.
    + eexists; reflexivity.
    + intros e0 H0. discriminate H0.
    + intros _ e0 H0. discriminate H0.
    + intros _ f H0. inversion H0; subst.
      eexists. repeat split.
    + eexists; reflexivity.
    + intros e0 H0. discriminate H0.
    + intros _ e0 H0. inversion H0; subst. reflexivity.
    + intros _ f H0. discriminate H0.
Qed.

(** A run with a failing directory, and one with an empty file name. *)
Example NewFileLogger_mkdir_fails :
  NewFileLogger readOnlyOS "/var/log" "gofiddle" LOG_LEVEL_INFO
  = (Returned (None, Some (ExternalError 30)), [EvMkdirAll "/var/log" 488]).
Proof. reflexivity. Qed.

Example NewFileLogger_default_name :
  snd (NewFileLogger plainOS "/tmp" "" LOG_LEVEL_DEBUG)
  = [EvMkdirAll "/tmp" 488; EvOpenFile "/tmp/server.log" 1089 416].
Proof. reflexivity. Qed.

(** ** The asynchronous writer *)

Section AsyncFacts.
Context {Sink : Type}.
Variable write : Sink -> string -> Sink * (Z * option error).

(** Each step uses up some of the measure, so every run ends. *)
Lemma step_decreases (s s' : Sys Sink) :
  step write s s' -> (measure s' < measure s)%nat.
Proof.
  unfold step, callerStep, workerStep, measure.
  intros [H|H].
  - destruct (caller s) eqn:Ec; try discriminate.
    + destruct (todo s) as [|[d|] rest] eqn:Et; try discriminate.
      * destruct (queueClosed s); [inversion H; subst; simpl; lia|].
        destruct (Z.of_nat (length (queue s)) <? capacity s); [|discriminate].
        inversion H; subst; simpl. rewrite length_app. simpl. lia.
      * destruct (queueClosed s); inversion H; subst; simpl; rewrite ?Et;
          simpl; lia.
    + destruct (worker s) eqn:Ew; try discriminate.
      inversion H; subst; simpl. lia.
  - destruct (worker s) eqn:Ew; try discriminate.
    + destruct (queue s) as [|m q] eqn:Eq.
      * destruct (queueClosed s); [|discriminate].
        inversion H; subst; simpl. lia.
      * inversion H; subst; simpl. lia.
    + inversion H; subst; simpl. lia.
Qed.

Lemma pendingWrites_writesThenClose (msgs : list string) :
  pendingWrites (writesThenClose msgs) = msgs.
Proof.
  unfold writesThenClose. induction msgs as [|d r IH]; simpl; congruence.
Qed.

Lemma sinkAfter_snoc (sink0 : Sink) (ds : list string) (d : string) :
  sinkAfter write sink0 (ds ++ [d]) = fst (write (sinkAfter write sink0 ds) d).
Proof. unfold sinkAfter. now rewrite fold_left_app. Qed.

Lemma drainInv_init (sink0 : Sink) (n : Z) (msgs : list string) :
  drainInv write sink0 n msgs (NewAsyncLogWriter sink0 n (writesThenClose msgs)).
Proof.
  unfold drainInv, accepted, phase. simpl.
  repeat split.
  - apply pendingWrites_writesThenClose.
  - left. repeat split; eauto.
Qed.

Lemma drainInv_step (sink0 : Sink) (n : Z) (msgs : list string) (s s' : Sys Sink) :
  drainInv write sink0 n msgs s -> step write s s' -> drainInv write sink0 n msgs s'.
Proof.
  unfold drainInv, accepted. intros (Hcap & Hacc & Hres & Hsink & Hph) [H|H].
  - unfold callerStep in H.
    destruct Hph as [(Hc & (rest & Ht) & Hq & Hw)
                    |[(Hc & Ht & Hq & Hw & Hs)|(Hc & Ht & Hq & Hw & Hqe)]];
      rewrite Hc in H.
    + rewrite Ht, Hq in H. rewrite Ht in Hacc.
      destruct rest as [|d rest]; simpl in H, Hacc.
      * inversion H; subst s'; clear H. unfold phase. simpl.
        repeat split; try assumption.
        right; left. repeat split; try assumption.
        -- destruct Hw as [Hw|[m Hw]]; rewrite Hw; discriminate.
        -- destruct Hw as [Hw|[m Hw]]; rewrite Hw; discriminate.
      * destruct (Z.of_nat (length (queue s)) <? capacity s); [|discriminate].
        inversion H; subst s'; clear H. unfold phase. simpl.
        rewrite map_app. simpl.
        repeat split; try assumption.
        -- rewrite <- Hacc. rewrite <- !app_assoc. reflexivity.
        -- rewrite Hres. rewrite !map_app. simpl. rewrite <- !app_assoc.
           reflexivity.
        -- left. repeat split; try assumption. now exists rest.
    + destruct (worker s) eqn:Ew; try discriminate.
      inversion H; subst s'; clear H. unfold phase. simpl.
      rewrite Ht in *. simpl in *.
      repeat split; try assumption.
      right; right. repeat split; auto.
    + rewrite Ht in H. discriminate.
  - unfold workerStep in H. destruct (worker s) eqn:Ew; try discriminate.
    + destruct (queue s) as [|m q] eqn:Eq.
      * destruct (queueClosed s) eqn:Ecl; [|discriminate].
        inversion H; subst s'; clear H. unfold phase in *. simpl in *.
        repeat split; try assumption.
        destruct Hph as [(Hc & _ & Hq & _)
                        |[(Hc & Ht & Hq & Hw & Hs)|(_ & _ & _ & Hw & _)]];
          try congruence.
        right; left. repeat split; auto. discriminate.
      * inversion H; subst s'; clear H. unfold phase in *. simpl in *.
        repeat split; try assumption.
        destruct Hph as [(Hc & Ht & Hq & Hw)
                        |[(Hc & Ht & Hq & Hw & Hs)|(_ & _ & _ & Hw & _)]];
          try congruence.
        -- left. repeat split; eauto.
        -- right; left. repeat split; auto; discriminate.
    + inversion H; subst s'; clear H. unfold phase in *. simpl in *.
      repeat split; try assumption.
      * rewrite <- Hacc. rewrite <- !app_assoc. reflexivity.
      * rewrite Hres. rewrite <- !app_assoc. reflexivity.
      * rewrite sinkAfter_snoc, Hsink. reflexivity.
      * destruct Hph as [(Hc & Ht & Hq & Hw)
                        |[(Hc & Ht & Hq & Hw & Hs)|(_ & _ & _ & Hw & _)]];
          try congruence.
        -- left. repeat split; eauto.
        -- right; left. repeat split; auto; discriminate.
Qed.

Lemma drainInv_reachable (sink0 : Sink) (n : Z) (msgs : list string) (s : Sys Sink) :
  reachable write (NewAsyncLogWriter sink0 n (writesThenClose msgs)) s ->
  drainInv write sink0 n msgs s.
Proof.
  induction 1 as [|s s' _ IH Hstep].
  - apply drainInv_init.
  - exact (drainInv_step sink0 n msgs s s' IH Hstep).
Qed.

(** While the program has calls left, one of the goroutines can move. *)
Lemma drainInv_progress (sink0 : Sink) (n : Z) (msgs : list string) (s : Sys Sink) :
  drainInv write sink0 n msgs s -> ~ finished s -> exists s', step write s s'.
Proof.
  unfold drainInv, finished, step.
  intros (Hcap & _ & _ & _ & Hph) Hnf.
  assert (Hpos : 1 <= capacity s).
  { rewrite Hcap. destruct (Z.leb_spec n 0); unfold DEFAULT_QUEUE_SIZE; lia. }
  destruct Hph as [(Hc & (rest & Ht) & Hq & Hw)
                  |[(Hc & Ht & Hq & Hw & Hs)|(Hc & Ht & _)]].
  - destruct rest as [|d rest].
    + eexists. left. unfold callerStep. rewrite Hc, Ht, Hq. simpl. reflexivity.
    + destruct (Z.ltb_spec (Z.of_nat (length (queue s))) (capacity s)) as [Hlt|Hge].
      * eexists. left. unfold callerStep. rewrite Hc, Ht, Hq. simpl.
        apply Z.ltb_lt in Hlt. rewrite Hlt. reflexivity.
      * destruct Hw as [Hw|[m Hw]].
        -- destruct (queue s) as [|m q] eqn:Eq; [simpl in Hge; lia|].
           eexists. right. unfold workerStep. rewrite Hw, Eq. reflexivity.
        -- eexists. right. unfold workerStep. rewrite Hw. reflexivity.
  - destruct (worker s) eqn:Ew.
    + destruct (queue s) as [|m q] eqn:Eq.
      * eexists. right. unfold workerStep. rewrite Ew, Eq, Hq. reflexivity.
      * eexists. right. unfold workerStep. rewrite Ew, Eq. reflexivity.
    + eexists. right. unfold workerStep. rewrite Ew. reflexivity.
    + eexists. left. unfold callerStep. rewrite Hc, Ew. reflexivity.
    + contradiction.
  - exfalso. apply Hnf. split; assumption.
Qed.

Lemma reachable_trans (s0 s1 s2 : Sys Sink) :
  reachable write s0 s1 -> reachable write s1 s2 -> reachable write s0 s2.
Proof.
  intros H1 H2. induction H2 as [|s s' _ IH Hstep]; [exact H1|].
  exact (reach_step write s0 s s' IH Hstep).
Qed.

(** From every state of the run a state where all calls have returned can
    be reached. *)
Lemma drainInv_finishes (sink0 : Sink) (n : Z) (msgs : list string) :
  forall (k : nat) (s : Sys Sink),
    (measure s < k)%nat -> drainInv write sink0 n msgs s ->
    exists s', reachable write s s' /\ finished s'.
Proof.
  induction k as [|k IH]; intros s Hk Hinv; [lia|].
  assert (D : finished s \/ ~ finished s).
  { unfold finished. destruct (caller s); destruct (todo s);
      first [left; split; reflexivity
            | right; intros [? ?]; discriminate]. }
  destruct D as [Hf|Hnf].
  - exists s. split; [constructor|exact Hf].
  - destruct (drainInv_progress sink0 n msgs s Hinv Hnf) as (s1 & Hstep).
    pose proof (step_decreases s s1 Hstep) as Hlt.
    destruct (IH s1 ltac:(lia) (drainInv_step sink0 n msgs s s1 Hinv Hstep))
      as (s' & Hr & Hf).
    exists s'. split; [|exact Hf].
    apply (reachable_trans s s1 s'); [|exact Hr].
    apply (reach_step write s s s1); [constructor|exact Hstep].
Qed.

Lemma finished_not_start (rest : list string) : writesThenClose rest <> [].
Proof. unfold writesThenClose. destruct rest; discriminate. Qed.

End AsyncFacts.

(** What the state is once every call of [N writes; Close] has returned. *)
Lemma drained_when_finished {Sink : Type}
  (write : Sink -> string -> Sink * (Z * option error))
  (sink0 : Sink) (n : Z) (msgs : list string) (s : Sys Sink) :
  reachable write (NewAsyncLogWriter sink0 n (writesThenClose msgs)) s ->
  finished s ->
  attempts s = msgs /\
  sink s = sinkAfter write sink0 msgs /\
  results s = map (fun d => (len d, @None error)) msgs /\
  queue s = [] /\
  worker s = Finished.
Proof.
  intros Hr [Hc Ht].
  destruct (drainInv_reachable write sink0 n msgs s Hr)
    as (_ & Hacc & Hres & Hsink & Hph).
  destruct Hph as [(_ & (rest & Ht') & _)
                  |[(Hc' & _)|(_ & _ & _ & Hw & Hq)]].
  - rewrite Ht in Ht'. symmetry in Ht'.
    now apply finished_not_start in Ht'.
  - congruence.
  - unfold accepted in *. rewrite Ht, Hw, Hq in *. simpl in *.
    rewrite !app_nil_r in *. subst msgs. repeat split; assumption.
Qed.


(** A recording sink keeps every message it did not fail on. *)
Lemma recording_sinkAfter (fails : string -> bool) (st : list string)
      (msgs : list string) :
  sinkAfter (recordingWrite fails) st msgs
  = (st ++ filter (fun d => negb (fails d)) msgs)%list.
Proof.
  unfold sinkAfter. revert st.
  induction msgs as [|d r IH]; intros st; simpl.
  - now rewrite app_nil_r.
  - rewrite IH. unfold recordingWrite. destruct (fails d); simpl.
    + reflexivity.
    + now rewrite <- app_assoc.
Qed.

(** Over a recording sink that fails on some payloads, after [Close] has
    returned the sink holds the other payloads, in order, each once; the
    failures reached no [Write] result. *)
Lemma fifo_drain_recording_sink (fails : string -> bool) (n : Z)
      (msgs : list string) (s : Sys (list string)) :
  reachable (recordingWrite fails)
            (NewAsyncLogWriter [] n (writesThenClose msgs)) s ->
  finished s ->
  sink s = filter (fun d => negb (fails d)) msgs /\
  Forall (fun r => snd r = None) (results s).
Proof.
  intros Hr Hf.
  destruct (drained_when_finished (recordingWrite fails) [] n msgs s Hr Hf)
    as (_ & Hs & Hres & _).
  split.
  - rewrite Hs. apply recording_sinkAfter.
  - rewrite Hres. apply Forall_forall. intros r Hin.
    apply in_map_iff in Hin as (d & <- & _). reflexivity.
Qed.

(** Scenario B: five messages into a sink that always fails, then
    [Close]: the run ends with [Close] returned, five write attempts, an
    empty sink and five nil errors. *)
Example always_failing_sink :
  run (recordingWrite (fun _ => true)) 30
      (NewAsyncLogWriter [] DEFAULT_QUEUE_SIZE
         (writesThenClose ["m1"; "m2"; "m3"; "m4"; "m5"]))
  = {| sink := []; queue := []; capacity := 100; queueClosed := true;
       worker := Finished; caller := Running; todo := [];
       results := [(2, None); (2, None); (2, None); (2, None); (2, None)];
       attempts := ["m1"; "m2"; "m3"; "m4"; "m5"] |}.
Proof. vm_compute. reflexivity. Qed.

(** A queue of capacity 1 makes the caller wait for the worker; the order
    is kept and the failing message is the only one missing. *)
Example small_queue_skips_failed :
  let s := run (recordingWrite (fun d => String.eqb d "b")) 30
               (NewAsyncLogWriter [] 1 (writesThenClose ["a"; "b"; "c"])) in
  sink s = ["a"; "c"] /\ attempts s = ["a"; "b"; "c"] /\
  caller s = Running /\ todo s = [].
Proof. vm_compute. repeat split. Qed.

(** ** Closing twice *)

Section CloseTwice.
Context {Sink : Type}.
Variable write : Sink -> string -> Sink * (Z * option error).
Variable sink0 : Sink.
Variable n : Z.

Lemma onTwicePath_step (s s' : Sys Sink) :
  onTwicePath sink0 n s -> step write s s' -> onTwicePath sink0 n s'.
Proof.
  unfold onTwicePath, step.
  intros [ -> | [ -> | [ -> | [ -> | -> ] ] ] ] [H|H]; simpl in H; inversion H; subst; tauto.
Qed.

Lemma onTwicePath_reachable (s : Sys Sink) :
  reachable write (twice0 sink0 n) s -> onTwicePath sink0 n s.
Proof.
  induction 1 as [|s s' _ IH Hstep].
  - left. reflexivity.
  - exact (onTwicePath_step s s' IH Hstep).
Qed.

Lemma twice_reaches_panic :
  reachable write (twice0 sink0 n) (twiceAt sink0 n true Finished closePanic [OpClose]).
Proof.
  eapply reach_step; [eapply reach_step; [eapply reach_step;
    [eapply reach_step; [apply reach_start|] |] |] |].
  - left. reflexivity.
  - right. reflexivity.
  - left. reflexivity.
  - left. reflexivity.
Qed.

End CloseTwice.

(** [Logger.Close] returns each time it is called; each call closes the
    owned closer again, under the lock. *)
Lemma Logger_Close_twice (logger : Logger) (w : World) :
  let r := (Logger_Close logger ;;; Logger_Close logger) w in
  fst r = Returned tt /\
  closes (trace (snd r)) = (closes (trace w) ++ owned logger ++ owned logger)%list.
Proof.
  cbv zeta. unfold Logger_Close, closeOwned, owned, bind, emit, ret.
  destruct (writeCloser logger); simpl;
    rewrite ?closes_app; simpl; rewrite <- ?app_assoc; simpl;
    rewrite ?app_nil_r; split; reflexivity.
Qed.


(** No interleaving lets the second [Close] on a writer return. *)
Lemma twice_never_finished {Sink : Type}
  (write : Sink -> string -> Sink * (Z * option error))
  (sink0 : Sink) (n : Z) (s : Sys Sink) :
  reachable write (NewAsyncLogWriter sink0 n [OpClose; OpClose]) s ->
  ~ finished s.
Proof.
  intros Hr [_ Ht].
  destruct (onTwicePath_reachable write sink0 n s Hr)
    as [ -> | [ -> | [ -> | [ -> | -> ] ] ] ]; discriminate Ht.
Qed.

(** A run of the second [Close] that can go no further has panicked. *)
Lemma twice_stuck_is_panic {Sink : Type}
  (write : Sink -> string -> Sink * (Z * option error))
  (sink0 : Sink) (n : Z) (s : Sys Sink) :
  reachable write (NewAsyncLogWriter sink0 n [OpClose; OpClose]) s ->
  (forall s', ~ step write s s') ->
  caller s = closePanic.
Proof.
  intros Hr Hstuck.
  destruct (onTwicePath_reachable write sink0 n s Hr)
    as [ -> | [ -> | [ -> | [ -> | -> ] ] ] ]; try reflexivity; exfalso.
  - eapply Hstuck. left. reflexivity.
  - eapply Hstuck. right. reflexivity.
  - eapply Hstuck. left. reflexivity.
  - eapply Hstuck. left. reflexivity.
Qed.



(** ** The earlier revision *)

(** In the earlier revision a response of any status is a successful
    write. *)
Lemma rev0_http_write_ignores_status
  (post : string -> string -> string -> PostResult)
  (w : HTTPLogWriter) (data : string) (code : Z) :
  post (url w) "html/text" data = Response code ->
  fst (Rev0.HTTPLogWriter_Write post w data) = (len data, None).
Proof. intros H. unfold Rev0.HTTPLogWriter_Write. now rewrite H. Qed.

(** In the earlier revision a directory that cannot be created makes the
    constructor panic. *)
Lemma rev0_NewFileLogger_panics (os : OS) (logpath fname0 : string)
      (loglevel : Z) (e : error) :
  MkdirAll os logpath perm0750 = Some e ->
  fst (Rev0.NewFileLogger os logpath fname0 loglevel) = Panicked (PanicError e).
Proof. intros H. unfold Rev0.NewFileLogger. now rewrite H. Qed.

(** The round trip and the ["ERROR"] case are the same with the earlier
    constants. *)
Lemma rev0_level_names (mapUpper : string -> string) :
  Forall (fun l => Rev0.String2LogLevel mapUpper (Rev0.LogLevel2String l) = l)
         [Rev0.LOG_LEVEL_TRACE; Rev0.LOG_LEVEL_DEBUG; Rev0.LOG_LEVEL_INFO;
          Rev0.LOG_LEVEL_WARN; Rev0.LOG_LEVEL_FATAL] /\
  Rev0.String2LogLevel mapUpper "ERROR" = Rev0.LOG_LEVEL_WARN.
Proof. split; [repeat constructor|reflexivity]. Qed.

(** In the earlier revision [Close] can return with a message still in
    the queue (the goroutine first runs after the flag is set), and it can
    wait for ever (the goroutine is inside the inner loop, which never
    ends). *)
Example rev0_close_loses_message :
  exists a,
    Rev0.follow (recordingWrite (fun _ => false))
                [Rev0.CallerTurn; Rev0.CallerTurn; Rev0.WorkerTurn; Rev0.CallerTurn]
                (Rev0.NewAsyncLogWriter [] 0 (writesThenClose ["a"]))
    = Some a /\
    finished (Rev0.sys a) /\ attempts (Rev0.sys a) = [] /\
    queue (Rev0.sys a) = [{| data := "a" |}].
Proof. eexists. vm_compute. repeat split. Qed.

Example rev0_close_waits_for_ever :
  exists a,
    Rev0.follow (recordingWrite (fun _ => false))
                [Rev0.WorkerTurn; Rev0.CallerTurn; Rev0.CallerTurn;
                 Rev0.WorkerTurn; Rev0.WorkerTurn]
                (Rev0.NewAsyncLogWriter [] 0 (writesThenClose ["a"]))
    = Some a /\
    caller (Rev0.sys a) = Waiting /\
    Rev0.callerStep a = None /\
    Rev0.workerStep (recordingWrite (fun _ => false)) a = None.
Proof. eexists. vm_compute. repeat split. Qed.

(** * Further properties *)

(** ** Level names and the parser *)

Lemma level_cases (l : Z) :
  l = LOG_LEVEL_TRACE \/ l = LOG_LEVEL_DEBUG \/ l = LOG_LEVEL_INFO \/
  l = LOG_LEVEL_WARN \/ l = LOG_LEVEL_ERROR \/ l = LOG_LEVEL_FATAL \/
  (~ In l levels /\ LogLevel2String l = "Unknown").
Proof.
  unfold LogLevel2String, levels.
  destruct (Z.eqb_spec l LOG_LEVEL_TRACE); [tauto|].
  destruct (Z.eqb_spec l LOG_LEVEL_DEBUG); [tauto|].
  destruct (Z.eqb_spec l LOG_LEVEL_INFO); [tauto|].
  destruct (Z.eqb_spec l LOG_LEVEL_WARN); [tauto|].
  destruct (Z.eqb_spec l LOG_LEVEL_ERROR); [tauto|].
  destruct (Z.eqb_spec l LOG_LEVEL_FATAL); [tauto|].
  do 6 right. split; [|reflexivity].
  simpl. intros H. repeat (destruct H as [H|H]; [congruence|]). exact H.
Qed.

(** The six levels have six different names, none of them ["Unknown"],
    and every other integer is named ["Unknown"]: the name tells the
    level apart exactly on the enumeration. *)
Theorem LogLevel2String_names (l l' : Z) :
  (In l levels <-> LogLevel2String l <> "Unknown") /\
  (In l levels <-> In (LogLevel2String l) level_names) /\
  (In l levels -> LogLevel2String l = LogLevel2String l' -> l = l').
Proof.
  destruct (level_cases l) as [->|[->|[->|[->|[->|[->|[Hn Hu]]]]]]];
    (split; [|split]);
    try (split; intros _; first [discriminate | simpl; tauto]);
    try (intros _ E;
         destruct (level_cases l') as [->|[->|[->|[->|[->|[->|[_ Hu']]]]]]];
         first [reflexivity | discriminate E | rewrite Hu' in E; discriminate E]).
  - split; [intros H; contradiction|intros H; congruence].
  - rewrite Hu. split; [intros H; contradiction|].
    simpl. intros H. repeat (destruct H as [H|H]; [discriminate H|]).
    contradiction.
  - intros H. contradiction.
Qed.

(** The parser's results.  Whatever the input, the result is TRACE,
    DEBUG, INFO, WARN, FATAL or -1, never [LOG_LEVEL_ERROR].  Naming the
    result gives back the upper-cased input, except that an input
    upper-casing to ["ERROR"] comes back as ["WARN"] and an unrecognised
    one as ["Unknown"]. *)
Theorem String2LogLevel_results (mapUpper : string -> string) (str : string) :
  let r := String2LogLevel mapUpper str in
  In r [LOG_LEVEL_TRACE; LOG_LEVEL_DEBUG; LOG_LEVEL_INFO; LOG_LEVEL_WARN;
        LOG_LEVEL_FATAL; -1] /\
  r <> LOG_LEVEL_ERROR /\
  (In (ToUpper mapUpper str) level_names <-> r <> -1) /\
  LogLevel2String r
  = (if String.eqb (ToUpper mapUpper str) "ERROR" then "WARN"
     else if r =? -1 then "Unknown"
     else ToUpper mapUpper str).
Proof.
  cbv zeta.
  destruct (String2LogLevel_cases mapUpper str)
    as [[E R]|[[E R]|[[E R]|[[E R]|[[E R]|[[E R]|[N R]]]]]]];
    rewrite R; try rewrite E;
    (split; [simpl; tauto|]); (split; [discriminate|]);
    (split; [|try reflexivity]);
    try (split; intros _; first [discriminate | simpl; tauto]).
  - split; [intros H; contradiction|intros H; congruence].
  - simpl.
    destruct (String.eqb_spec (ToUpper mapUpper str) "ERROR") as [E|_];
      [|reflexivity].
    exfalso. apply N. rewrite E. simpl. tauto.
Qed.

Lemma upperByte_idempotent (c : ascii) : upperByte (upperByte c) = upperByte c.
Proof. destruct c as [[] [] [] [] [] [] [] []]; reflexivity. Qed.

Lemma upperBytes_idempotent (s : string) : upperBytes (upperBytes s) = upperBytes s.
Proof.
  induction s as [|c r IH]; simpl; [reflexivity|].
  now rewrite upperByte_idempotent, IH.
Qed.

(** The parser ignores the letter case of ASCII input: two strings of
    ASCII bytes that upper-case to the same bytes parse to the same
    level, and a string parses like its own upper-casing. *)
Theorem String2LogLevel_ignores_case (mapUpper : string -> string) (s s' : string) :
  isASCII s = true -> isASCII s' = true ->
  upperBytes s = upperBytes s' ->
  String2LogLevel mapUpper s = String2LogLevel mapUpper s' /\
  String2LogLevel mapUpper (upperBytes s) = String2LogLevel mapUpper s.
Proof.
  intros Hs Hs' E. unfold String2LogLevel.
  rewrite (ToUpper_ascii mapUpper s Hs), (ToUpper_ascii mapUpper s' Hs').
  rewrite (ToUpper_ascii mapUpper (upperBytes s))
    by (now rewrite isASCII_upperBytes).
  rewrite upperBytes_idempotent, E. split; reflexivity.
Qed.

Lemma String2LogLevel_ignores_case_witness :
  String2LogLevel (fun s => s) "Debug" = String2LogLevel (fun s => s) "dEBUG" /\
  String2LogLevel (fun s => s) (upperBytes "Debug")
  = String2LogLevel (fun s => s) "Debug".
Proof.
  apply (String2LogLevel_ignores_case (fun s => s) "Debug" "dEBUG");
    reflexivity.
Defined.

(** ** Emission: worlds, locks and batches *)

Lemma filtered_world (logger : Logger) (lvl : Z) (s : string) (w : World) :
  (if lvl >=? level logger then emitAt logger lvl s else ret tt) w
  = (Returned tt, logWorld logger lvl s w).
Proof.
  unfold logWorld. destruct (lvl >=? level logger);
    [apply emitAt_spec|reflexivity].
Qed.

Lemma trace_logWorld (logger : Logger) (lvl : Z) (s : string) (w : World) :
  trace (logWorld logger lvl s w)
  = (trace w ++ (if lvl >=? level logger
                 then emissionTrace logger (clock w (ticks w)) lvl s
                 else []))%list.
Proof.
  unfold logWorld. destruct (lvl >=? level logger); simpl;
    [reflexivity|now rewrite app_nil_r].
Qed.

(** Log, close what is owned, end: the outcome and the world. *)
Lemma terminating_world {A} (logger : Logger) (lvl : Z) (s : string)
      (final : M A) (o : Outcome A) (w : World) :
  (forall w0, final w0 = (o, w0)) ->
  ((if lvl >=? level logger then emitAt logger lvl s else ret tt) ;;;
   closeOwned logger ;;; final) w
  = (o, closedWorld logger (logWorld logger lvl s w)).
Proof.
  intros Hf.
  rewrite (bind_returned _ _ tt w _ (filtered_world logger lvl s w)).
  rewrite (bind_returned _ _ tt _ _ (closeOwned_spec logger _)).
  apply Hf.
Qed.

Lemma lockState_app (a b : list Event) :
  forall held,
    lockState held (a ++ b)
    = match lockState held a with
      | Some h => lockState h b
      | None => None
      end.
Proof.
  induction a as [|e a IH]; intros held; simpl; [reflexivity|].
  destruct e; destruct held; simpl; auto.
Qed.

Lemma closesWithLock_app (a b : list Event) :
  forall held h,
    lockState held a = Some h ->
    closesWithLock held (a ++ b)
    = (closesWithLock held a ++ closesWithLock h b)%list.
Proof.
  induction a as [|e a IH]; intros held h H; simpl in *.
  - now inversion H.
  - destruct e; destruct held; simpl in *; try discriminate;
      try (now apply IH); f_equal; now apply IH.
Qed.

Lemma lockState_emission (logger : Logger) (t : Time) (lvl : Z) (s : string) :
  lockState false (emissionTrace logger t lvl s) = Some false.
Proof.
  unfold emissionTrace. destruct (formatter logger), (writer logger); reflexivity.
Qed.

Lemma lockState_closes (l : list Writer) (held : bool) :
  lockState held (map EvClose l) = Some held.
Proof. induction l as [|x l IH]; simpl; auto. Qed.

Lemma closesWithLock_closes (l : list Writer) (held : bool) :
  closesWithLock held (map EvClose l) = map (fun c => (c, held)) l.
Proof. induction l as [|x l IH]; simpl; [reflexivity|now rewrite IH]. Qed.

Lemma closesWithLock_emission (logger : Logger) (t : Time) (lvl : Z) (s : string) :
  closesWithLock false (emissionTrace logger t lvl s) = [].
Proof.
  unfold emissionTrace. destruct (formatter logger), (writer logger); reflexivity.
Qed.

Lemma lockState_logWorld (logger : Logger) (lvl : Z) (s : string) (w : World) :
  lockState false (trace w) = Some false ->
  lockState false (trace (logWorld logger lvl s w)) = Some false.
Proof.
  intros H. rewrite trace_logWorld, lockState_app, H.
  destruct (lvl >=? level logger); [apply lockState_emission|reflexivity].
Qed.

Lemma closesWithLock_logWorld (logger : Logger) (lvl : Z) (s : string) (w : World) :
  lockState false (trace w) = Some false ->
  closesWithLock false (trace (logWorld logger lvl s w))
  = closesWithLock false (trace w).
Proof.
  intros H. rewrite trace_logWorld.
  rewrite (closesWithLock_app _ _ false false H).
  destruct (lvl >=? level logger);
    [rewrite closesWithLock_emission|]; apply app_nil_r.
Qed.

(** The mutex discipline of the logger.  From a world whose trace left
    the mutex free, every call of the emission API, of [Close] and of
    [SetFormatter] locks only a free mutex, unlocks only a held one, calls
    the formatter only while holding it, writes the sink only after
    releasing it, and leaves it free at the end, also when the call ends
    the process or panics.  [Close] closes the owned closer while holding
    the mutex; [Fatalf], [Fatalln] and the [Panic] family close it with
    the mutex free. *)
Theorem logger_mutex_discipline {F : Fmt}
  (logger : Logger) (L : Z) (v : list iface) (format : string)
  (f : option LogFormatter) (w : World) :
  lockState false (trace w) = Some false ->
  Forall (fun w' => lockState false (trace w') = Some false)
    [snd (Print logger v w); snd (Printf logger format v w);
     snd (Println logger v w);
     snd (Log logger L v w); snd (Logf logger L format v w);
     snd (Logln logger L v w);
     snd (Fatal logger v w); snd (Fatalf logger format v w);
     snd (Fatalln logger v w);
     snd (Panic logger v w); snd (Panicf logger format v w);
     snd (Panicln logger v w);
     snd (Logger_Close logger w); snd (SetFormatter logger f w)] /\
  closesWithLock false (trace (snd (Logger_Close logger w)))
  = (closesWithLock false (trace w)
       ++ map (fun c => (c, true)) (owned logger))%list /\
  Forall (fun w' => closesWithLock false (trace w')
                    = (closesWithLock false (trace w)
                         ++ map (fun c => (c, false)) (owned logger))%list)
    [snd (Fatalf logger format v w); snd (Fatalln logger v w);
     snd (Panic logger v w); snd (Panicf logger format v w);
     snd (Panicln logger v w)].
Proof.
  intros H.
  assert (E : forall s, lockState false
                          (trace (snd (emitAt logger (level logger) s w)))
                        = Some false).
  { intros s. rewrite emitAt_spec. simpl.
    now rewrite lockState_app, H, lockState_emission. }
  assert (T : forall A lvl s (final : M A) o,
             (forall w0, final w0 = (o, w0)) ->
             let w' := snd (((if lvl >=? level logger
                              then emitAt logger lvl s else ret tt) ;;;
                             closeOwned logger ;;; final) w) in
             lockState false (trace w') = Some false /\
             closesWithLock false (trace w')
             = (closesWithLock false (trace w)
                  ++ map (fun c => (c, false)) (owned logger))%list).
  { intros A lvl s final o Hf. cbv zeta.
    rewrite (terminating_world logger lvl s final o w Hf). simpl.
    pose proof (lockState_logWorld logger lvl s w H) as H1.
    split.
    - now rewrite lockState_app, H1, lockState_closes.
    - rewrite (closesWithLock_app _ _ false false H1).
      now rewrite closesWithLock_closes, closesWithLock_logWorld. }
  assert (HX : forall w0 : World, @os_Exit unit 1 w0 = (Exited 1, w0))
    by reflexivity.
  assert (HP : forall w0 : World,
             @panic unit PanicNil w0 = (Panicked PanicNil, w0))
    by reflexivity.
  split; [|split].
  - repeat constructor.
    + apply E.
    + apply E.
    + apply E.
    + change (Log logger L v)
        with (if L >=? level logger then emitAt logger L (Sprint v) else ret tt).
      rewrite filtered_world. now apply lockState_logWorld.
    + change (Logf logger L format v)
        with (if L >=? level logger
              then emitAt logger L (Sprintf format v) else ret tt).
      rewrite filtered_world. now apply lockState_logWorld.
    + change (Logln logger L v)
        with (if L >=? level logger then emitAt logger L (Sprintln v) else ret tt).
      rewrite filtered_world. now apply lockState_logWorld.
    + unfold Fatal.
      change (Log logger LOG_LEVEL_FATAL v)
        with (if LOG_LEVEL_FATAL >=? level logger
              then emitAt logger LOG_LEVEL_FATAL (Sprint v) else ret tt).
      rewrite (bind_returned _ _ tt w _
                 (filtered_world logger LOG_LEVEL_FATAL (Sprint v) w)).
      simpl. now apply lockState_logWorld.
    + apply (proj1 (T unit LOG_LEVEL_FATAL (Sprintf format v) (os_Exit 1) _ HX)).
    + apply (proj1 (T unit LOG_LEVEL_FATAL (Sprintln v) (os_Exit 1) _ HX)).
    + apply (proj1 (T unit LOG_LEVEL_FATAL (Sprint v) (panic PanicNil) _ HP)).
    + apply (proj1 (T unit LOG_LEVEL_FATAL (Sprintf format v) (panic PanicNil) _ HP)).
    + apply (proj1 (T unit LOG_LEVEL_FATAL (Sprintln v) (panic PanicNil) _ HP)).
    + unfold Logger_Close, closeOwned, bind, emit, ret.
      destruct (writeCloser logger); simpl;
        rewrite !lockState_app, H; reflexivity.
    + unfold SetFormatter, bind, emit, ret. simpl.
      rewrite !lockState_app, H. reflexivity.
  - unfold Logger_Close, closeOwned, owned, bind, emit, ret.
    destruct (writeCloser logger); simpl.
    + rewrite <- !app_assoc. simpl.
      rewrite (closesWithLock_app _ _ false false H). reflexivity.
    + rewrite <- !app_assoc. simpl.
      rewrite (closesWithLock_app _ _ false false H). reflexivity.
  - repeat constructor.
    + apply (proj2 (T unit LOG_LEVEL_FATAL (Sprintf format v) (os_Exit 1) _ HX)).
    + apply (proj2 (T unit LOG_LEVEL_FATAL (Sprintln v) (os_Exit 1) _ HX)).
    + apply (proj2 (T unit LOG_LEVEL_FATAL (Sprint v) (panic PanicNil) _ HP)).
    + apply (proj2 (T unit LOG_LEVEL_FATAL (Sprintf format v) (panic PanicNil) _ HP)).
    + apply (proj2 (T unit LOG_LEVEL_FATAL (Sprintln v) (panic PanicNil) _ HP)).
Qed.

Lemma logger_mutex_discipline_witness :
  lockState false
    (trace (snd (Fatalf fileLogger "disk full" [] (fresh tickingClock))))
  = Some false.
Proof.
  pose proof (logger_mutex_discipline fileLogger LOG_LEVEL_INFO []
                "disk full" None (fresh tickingClock) eq_refl) as D.
  destruct D as [D _].
  exact (Forall_inv
           (Forall_inv_tail (Forall_inv_tail (Forall_inv_tail
           (Forall_inv_tail (Forall_inv_tail (Forall_inv_tail
           (Forall_inv_tail D)))))))).
Defined.

Section BatchFacts.
Context {F : Fmt}.

Lemma logAll_spec (logger : Logger) (snk : Writer) :
  writer logger = Some snk ->
  forall (calls : list (Z * list iface)) (w : World),
    exists w',
      logAll logger calls w = (Returned tt, w') /\
      clock w' = clock w /\
      ticks w' = (ticks w + length (batchRecords logger (clock w) (ticks w) calls))%nat /\
      writes (trace w')
      = (writes (trace w) ++ batchRecords logger (clock w) (ticks w) calls)%list /\
      closes (trace w') = closes (trace w).
Proof.
  intros Hs. induction calls as [|[lvl v] r IH]; intros w.
  - exists w. simpl. rewrite app_nil_r, Nat.add_0_r. repeat split.
  - simpl.
    change (Log logger lvl v)
      with (if lvl >=? level logger then emitAt logger lvl (Sprint v) else ret tt).
    rewrite (bind_returned _ _ tt w _ (filtered_world logger lvl (Sprint v) w)).
    destruct (IH (logWorld logger lvl (Sprint v) w))
      as (w' & E & Hc & Ht & Hw & Hcl).
    exists w'. split; [exact E|].
    unfold logWorld in *. destruct (lvl >=? level logger); simpl in *.
    + rewrite Hc, Ht, Hw, Hcl. repeat split.
      * lia.
      * rewrite writes_app, writes_emission, Hs, <- app_assoc. reflexivity.
      * rewrite closes_app, closes_emission. apply app_nil_r.
    + repeat split; assumption.
Qed.

Lemma batchRecords_length (logger : Logger) (clk : nat -> Time)
      (calls : list (Z * list iface)) :
  forall k,
    length (batchRecords logger clk k calls)
    = length (filter (fun c => fst c >=? level logger) calls).
Proof.
  induction calls as [|[lvl v] r IH]; intros k; simpl; [reflexivity|].
  destruct (lvl >=? level logger); simpl; now rewrite IH.
Qed.

End BatchFacts.

(** A batch of [Log] calls on a logger with a sink returns and leaves in
    the sink one record for each call whose level is at or above the
    threshold, in the order of the calls, the k-th of them stamped with
    the k-th clock reading of the batch; the calls below the threshold
    leave nothing and read no clock, and nothing is closed. *)
Theorem batch_of_logs {F : Fmt}
  (logger : Logger) (snk : Writer) (calls : list (Z * list iface)) (w : World) :
  writer logger = Some snk ->
  let r := logAll logger calls w in
  let recs := batchRecords logger (clock w) (ticks w) calls in
  fst r = Returned tt /\
  writes (trace (snd r)) = (writes (trace w) ++ recs)%list /\
  ticks (snd r) = (ticks w + length recs)%nat /\
  length recs
  = length (filter (fun c => fst c >=? level logger) calls) /\
  closes (trace (snd r)) = closes (trace w).
Proof.
  intros Hs. cbv zeta.
  destruct (logAll_spec logger snk Hs calls w) as (w' & E & _ & Ht & Hw & Hc).
  rewrite E. simpl. repeat split; try assumption.
  apply batchRecords_length.
Qed.

Lemma batch_of_logs_witness :
  let logger := New (Some (UserWriter 0 false)) LOG_LEVEL_WARN in
  let calls := [(LOG_LEVEL_ERROR, ["e"]); (LOG_LEVEL_INFO, ["i"]);
                (LOG_LEVEL_WARN, ["w"])] in
  let r := logAll logger calls (fresh tickingClock) in
  let recs := batchRecords logger tickingClock 0 calls in
  fst r = Returned tt /\
  writes (trace (snd r)) = (writes [] ++ recs)%list /\
  ticks (snd r) = (0 + length recs)%nat /\
  length recs = length (filter (fun c => fst c >=? level logger) calls) /\
  closes (trace (snd r)) = closes [].
Proof.
  exact (batch_of_logs (New (Some (UserWriter 0 false)) LOG_LEVEL_WARN)
           (UserWriter 0 false)
           [(LOG_LEVEL_ERROR, ["e"]); (LOG_LEVEL_INFO, ["i"]);
            (LOG_LEVEL_WARN, ["w"])]
           (fresh tickingClock) eq_refl).
Defined.

(** The batch above, run: two records, ERROR then WARN, one second
    apart. *)
Example batch_of_logs_run :
  writes (trace (snd (logAll (New (Some (UserWriter 0 false)) LOG_LEVEL_WARN)
                        [(LOG_LEVEL_ERROR, ["e"]); (LOG_LEVEL_INFO, ["i"]);
                         (LOG_LEVEL_WARN, ["w"])]
                        (fresh tickingClock))))
  = [("ERROR: 2006-01-02T22:04:05 (UTC): e" ++ newline)%string;
     ("WARN: 2006-01-02T22:04:06 (UTC): w" ++ newline)%string].
Proof. vm_compute. reflexivity. Qed.

(** ** Changing the threshold and the formatter *)



(** [SetFormatter] returns, under the lock, the logger with the new
    formatter and every other field as before; records are rendered by
    the new formatter from then on.  After [SetFormatter(nil)] an emission
    at or above the threshold still writes the sink once, with the empty
    string, and calls no formatter. *)
Theorem SetFormatter_swaps_formatter {F : Fmt}
  (logger : Logger) (f : option LogFormatter) (L : Z) (v : list iface)
  (w w1 : World) :
  level logger <= L ->
  exists lg,
    SetFormatter logger f w
    = (Returned lg,
       {| clock := clock w; ticks := ticks w;
          trace := trace w ++ [EvLock; EvUnlock] |}) /\
    formatter lg = f /\
    (level lg, path lg, fname lg, writer lg, writeCloser lg)
    = (level logger, path logger, fname logger, writer logger,
       writeCloser logger) /\
    writes (trace (snd (Log lg L v w1)))
    = (writes (trace w1)
         ++ match writer logger with
            | Some _ => [match f with
                         | Some g => Format g (clock w1 (ticks w1)) L (Sprint v)
                         | None => ""
                         end]
            | None => []
            end)%list /\
    formats (trace (snd (Log lg L v w1)))
    = (formats (trace w1)
         ++ match f with
            | Some _ => [(clock w1 (ticks w1), L, Sprint v)]
            | None => []
            end)%list.
Proof.
  intros HL.
  set (lg := {| level := level logger; path := path logger;
                fname := fname logger; writer := writer logger;
                writeCloser := writeCloser logger; formatter := f |}).
  exists lg. split.
  - unfold SetFormatter, bind, emit, ret. simpl.
    rewrite <- app_assoc. reflexivity.
  - split; [reflexivity|]. split; [reflexivity|].
    assert (HL' : level lg <= L) by exact HL.
    change (Log lg L v w1)
      with ((if L >=? level lg then emitAt lg L (Sprint v) else ret tt) w1).
    rewrite (filtered_above lg L (Sprint v) w1 HL'). simpl.
    rewrite writes_app, formats_app, writes_emission, formats_emission.
    split; reflexivity.
Qed.

Lemma SetFormatter_swaps_formatter_witness :
  exists lg,
    SetFormatter fileLogger None (fresh tickingClock)
    = (Returned lg,
       {| clock := tickingClock; ticks := 0; trace := [] ++ [EvLock; EvUnlock] |}) /\
    formatter lg = None /\
    (level lg, path lg, fname lg, writer lg, writeCloser lg)
    = (level fileLogger, path fileLogger, fname fileLogger, writer fileLogger,
       writeCloser fileLogger) /\
    writes (trace (snd (@Log StringFmt lg LOG_LEVEL_ERROR ["x"]
                          (fresh tickingClock))))
    = (writes [] ++ [""])%list /\
    formats (trace (snd (@Log StringFmt lg LOG_LEVEL_ERROR ["x"]
                           (fresh tickingClock))))
    = (formats [] ++ [])%list.
Proof.
  apply (@SetFormatter_swaps_formatter StringFmt fileLogger None
           LOG_LEVEL_ERROR ["x"] (fresh tickingClock) (fresh tickingClock)).
  unfold fileLogger, LOG_LEVEL_INFO, LOG_LEVEL_ERROR. simpl. lia.
Defined.

(** ** Line-terminated calls *)

Lemma string_app_assoc (a b c : string) :
  ((a ++ b) ++ c)%string = (a ++ b ++ c)%string.
Proof. induction a as [|x a IH]; simpl; [reflexivity|now rewrite IH]. Qed.

(** [Logln] and [Println] hand the formatter a message that already ends
    with the line feed [Sprintln] appends, and the default formatter
    appends its own: with the default formatter the record of a
    line-terminated call ends with two line feeds. *)
Theorem line_calls_end_with_two_newlines {F : Fmt}
  (logger : Logger) (snk : Writer) (L : Z) (v : list iface) (w : World) :
  formatter logger = Some DefaultLogFormatter ->
  writer logger = Some snk ->
  level logger <= L ->
  endsWithNewline (Sprintln v) ->
  exists line pline,
    writes (trace (snd (Logln logger L v w)))
    = (writes (trace w) ++ [(line ++ newline ++ newline)%string])%list /\
    writes (trace (snd (Println logger v w)))
    = (writes (trace w) ++ [(pline ++ newline ++ newline)%string])%list.
Proof.
  intros Hf Hs HL [body Hb].
  exists (LogLevel2String L ++ ": "
            ++ Time_Format (Time_UTC (clock w (ticks w))) layout ++ ": "
            ++ body)%string,
         (LogLevel2String (level logger) ++ ": "
            ++ Time_Format (Time_UTC (clock w (ticks w))) layout ++ ": "
            ++ body)%string.
  change (Logln logger L v w)
    with ((if L >=? level logger then emitAt logger L (Sprintln v) else ret tt) w).
  change (Println logger v w) with (emitAt logger (level logger) (Sprintln v) w).
  rewrite (filtered_above logger L (Sprintln v) w HL), emitAt_spec.
  cbn [snd trace after].
  rewrite !writes_app, !writes_emission, Hs.
  unfold recordText. rewrite Hf.
  cbn [Format DefaultLogFormatter]. unfold DefaultLogFormatter_Format.
  rewrite Hb, !string_app_assoc. split; reflexivity.
Qed.

Lemma line_calls_end_with_two_newlines_witness :
  exists line pline,
    writes (trace (snd (@Logln StringFmt fileLogger LOG_LEVEL_WARN
                          ["low"; "disk"] (fresh tickingClock))))
    = (writes [] ++ [(line ++ newline ++ newline)%string])%list /\
    writes (trace (snd (@Println StringFmt fileLogger ["low"; "disk"]
                          (fresh tickingClock))))
    = (writes [] ++ [(pline ++ newline ++ newline)%string])%list.
Proof.
  apply (@line_calls_end_with_two_newlines StringFmt fileLogger (FileWriter 3)
           LOG_LEVEL_WARN ["low"; "disk"] (fresh tickingClock)).
  - reflexivity.
  - reflexivity.
  - unfold fileLogger, LOG_LEVEL_INFO, LOG_LEVEL_WARN. simpl. lia.
  - exists "low disk". reflexivity.
Defined.

(** ** The asynchronous writer under any program *)

Section ConservationFacts.
Context {Sink : Type}.
Variable write : Sink -> string -> Sink * (Z * option error).

Lemma conserved_init (program : list Op) (sink0 : Sink) (n : Z) :
  conserved write program sink0 n (NewAsyncLogWriter sink0 n program).
Proof.
  unfold conserved, accepted. simpl. repeat split; try discriminate.
  destruct (Z.leb_spec n 0); unfold DEFAULT_QUEUE_SIZE; lia.
Qed.

Lemma conserved_step (program : list Op) (sink0 : Sink) (n : Z) (s s' : Sys Sink) :
  conserved write program sink0 n s -> step write s s' ->
  conserved write program sink0 n s'.
Proof.
  unfold conserved, accepted.
  intros (Hcap & Hlen & Hacc & Hres & Hsink & Hwait) [H|H].
  - unfold callerStep in H. destruct (caller s) eqn:Ec; try discriminate.
    + destruct (todo s) as [|[d|] rest] eqn:Et; try discriminate.
      * destruct (queueClosed s).
        -- inversion H; subst s'; clear H. simpl. rewrite ?Et.
           repeat split; try assumption. discriminate.
        -- destruct (Z.ltb_spec (Z.of_nat (length (queue s))) (capacity s));
             [|discriminate].
           inversion H; subst s'; clear H. simpl in *.
           rewrite map_app. simpl.
           repeat split; try assumption; try discriminate.
           ++ rewrite length_app. simpl. lia.
           ++ rewrite <- Hacc. rewrite <- !app_assoc. reflexivity.
           ++ rewrite Hres. rewrite !map_app. simpl. rewrite <- !app_assoc.
              reflexivity.
      * destruct (queueClosed s); inversion H; subst s'; clear H; simpl;
          rewrite ?Et; repeat split; try assumption; try discriminate.
        intros _. eauto.
    + destruct (worker s) eqn:Ew; try discriminate.
      inversion H; subst s'; clear H. simpl in *.
      destruct (Hwait eq_refl) as (r & Hr). rewrite Hr in *. simpl in *.
      repeat split; try assumption. discriminate.
  - unfold workerStep in H. destruct (worker s) eqn:Ew; try discriminate.
    + destruct (queue s) as [|m q] eqn:Eq.
      * destruct (queueClosed s); [|discriminate].
        inversion H; subst s'; clear H. simpl in *.
        repeat split; assumption.
      * inversion H; subst s'; clear H. simpl in *.
        repeat split; try assumption. lia.
    + inversion H; subst s'; clear H. simpl in *.
      repeat split; try assumption.
      * rewrite <- Hacc. rewrite <- !app_assoc. reflexivity.
      * rewrite Hres. rewrite <- !app_assoc. reflexivity.
      * rewrite sinkAfter_snoc, Hsink. reflexivity.
Qed.

Lemma conserved_reachable (program : list Op) (sink0 : Sink) (n : Z) (s : Sys Sink) :
  reachable write (NewAsyncLogWriter sink0 n program) s ->
  conserved write program sink0 n s.
Proof.
  induction 1 as [|s s' _ IH Hstep].
  - apply conserved_init.
  - exact (conserved_step program sink0 n s s' IH Hstep).
Qed.

(** The scheduler [run] only visits reachable states. *)
Lemma run_reachable (fuel : nat) :
  forall s0 s, reachable write s0 s -> reachable write s0 (run write fuel s).
Proof.
  induction fuel as [|f IH]; intros s0 s Hr; simpl; [exact Hr|].
  destruct (workerStep write s) as [s1|] eqn:Ew.
  - apply IH. apply (reach_step write s0 s s1 Hr). right. exact Ew.
  - destruct (callerStep s) as [s1|] eqn:Ec; [|exact Hr].
    apply IH. apply (reach_step write s0 s s1 Hr). left. exact Ec.
Qed.

End ConservationFacts.



Section AfterCloseFacts.
Context {Sink : Type}.
Variable write : Sink -> string -> Sink * (Z * option error).

Lemma pendingWrites_app (a b : list Op) :
  pendingWrites (a ++ b) = (pendingWrites a ++ pendingWrites b)%list.
Proof.
  induction a as [|[d|] a IH]; simpl; [reflexivity| |assumption].
  now rewrite IH.
Qed.

(** Every run ends: from each state a state where no goroutine can move
    is reachable. *)
Lemma runs_end :
  forall (k : nat) (s : Sys Sink),
    (measure s < k)%nat ->
    exists s', reachable write s s' /\ stuck write s'.
Proof.
  induction k as [|k IH]; intros s Hk; [lia|].
  destruct (callerStep s) as [s1|] eqn:Ec.
  - assert (Hstep : step write s s1) by (left; exact Ec).
    pose proof (step_decreases write s s1 Hstep) as Hlt.
    destruct (IH s1 ltac:(lia)) as (s' & Hr & Hs).
    exists s'. split; [|exact Hs].
    apply (reachable_trans write s s1 s'); [|exact Hr].
    apply (reach_step write s s s1); [constructor|exact Hstep].
  - destruct (workerStep write s) as [s1|] eqn:Ew.
    + assert (Hstep : step write s s1) by (right; exact Ew).
      pose proof (step_decreases write s s1 Hstep) as Hlt.
      destruct (IH s1 ltac:(lia)) as (s' & Hr & Hs).
      exists s'. split; [|exact Hs].
      apply (reachable_trans write s s1 s'); [|exact Hr].
      apply (reach_step write s s s1); [constructor|exact Hstep].
    + exists s. split; [constructor|split; assumption].
Qed.

Lemma phaseThen_init (msgs : list string) (op : Op) (post : list Op)
      (sink0 : Sink) (n : Z) :
  phaseThen op post
    (NewAsyncLogWriter sink0 n (writesThenClose msgs ++ op :: post)).
Proof. left. simpl. repeat split; eauto. Qed.

Lemma phaseThen_step (op : Op) (post : list Op) (s s' : Sys Sink) :
  phaseThen op post s -> step write s s' -> phaseThen op post s'.
Proof.
  unfold phaseThen. intros Hph [H|H].
  - unfold callerStep in H.
    destruct Hph as [(Hc & (rest & Ht) & Hq & Hw)
                    |[(Hc & Ht & Hq & Hw & Hs)
                     |[(Hc & Ht & Hq & Hw & Hqe)|(Hc & _)]]];
      rewrite Hc in H; try discriminate.
    + rewrite Ht, Hq in H. destruct rest as [|d rest]; simpl in H.
      * inversion H; subst s'; clear H. simpl.
        right; left. repeat split; try assumption.
        -- destruct Hw as [Hw|[m Hw]]; rewrite Hw; discriminate.
        -- destruct Hw as [Hw|[m Hw]]; rewrite Hw; discriminate.
      * destruct (Z.of_nat (length (queue s)) <? capacity s); [|discriminate].
        inversion H; subst s'; clear H. simpl.
        left. repeat split; try assumption. now exists rest.
    + destruct (worker s) eqn:Ew; try discriminate.
      inversion H; subst s'; clear H. simpl. rewrite Ht. simpl.
      right; right; left. repeat split; auto.
    + rewrite Ht, Hq in H.
      destruct op as [d|]; inversion H; subst s'; clear H; simpl;
        right; right; right; repeat split; assumption.
  - unfold workerStep in H. destruct (worker s) eqn:Ew; try discriminate.
    + destruct (queue s) as [|m q] eqn:Eq.
      * destruct (queueClosed s) eqn:Ecl; [|discriminate].
        inversion H; subst s'; clear H. simpl.
        destruct Hph as [(Hc & _ & Hq & _)
                        |[(Hc & Ht & Hq & Hw & Hs)
                         |[(_ & _ & _ & Hw & _)|(_ & _ & _ & Hw & _)]]];
          try congruence.
        right; left. repeat split; auto. discriminate.
      * inversion H; subst s'; clear H. simpl.
        destruct Hph as [(Hc & Ht & Hq & Hw)
                        |[(Hc & Ht & Hq & Hw & Hs)
                         |[(_ & _ & _ & Hw & _)|(_ & _ & _ & Hw & _)]]];
          try congruence.
        -- left. repeat split; eauto.
        -- right; left. repeat split; auto; discriminate.
    + inversion H; subst s'; clear H. simpl.
      destruct Hph as [(Hc & Ht & Hq & Hw)
                      |[(Hc & Ht & Hq & Hw & Hs)
                       |[(_ & _ & _ & Hw & _)|(_ & _ & _ & Hw & _)]]];
        try congruence.
      * left. repeat split; eauto.
      * right; left. repeat split; auto; discriminate.
Qed.

Lemma phaseThen_reachable (msgs : list string) (op : Op) (post : list Op)
      (sink0 : Sink) (n : Z) (s : Sys Sink) :
  reachable write
            (NewAsyncLogWriter sink0 n (writesThenClose msgs ++ op :: post)) s ->
  phaseThen op post s.
Proof.
  induction 1 as [|s s' _ IH Hstep].
  - apply phaseThen_init.
  - exact (phaseThen_step op post s s' IH Hstep).
Qed.

(** In that program a state where nothing can move is the panic of the
    call after [Close]. *)
Lemma phaseThen_stuck (op : Op) (post : list Op) (sink0 : Sink) (n : Z)
      (program : list Op) (s : Sys Sink) :
  conserved write program sink0 n s ->
  phaseThen op post s -> stuck write s ->
  caller s = CallerPanicked (panicText op) /\ todo s = op :: post /\
  queueClosed s = true /\ worker s = Finished /\ queue s = [].
Proof.
  unfold stuck, callerStep, workerStep.
  intros (Hcap & _) Hph [Hcs Hws].
  assert (Hpos : 1 <= capacity s).
  { rewrite Hcap. destruct (Z.leb_spec n 0); unfold DEFAULT_QUEUE_SIZE; lia. }
  destruct Hph as [(Hc & (rest & Ht) & Hq & Hw)
                  |[(Hc & Ht & Hq & Hw & Hs)
                   |[(Hc & Ht & Hq & Hw & Hqe)|H4]]]; [exfalso..|exact H4].
  - rewrite Hc, Ht, Hq in Hcs. destruct rest as [|d rest]; simpl in Hcs;
      [discriminate|].
    destruct (Z.ltb_spec (Z.of_nat (length (queue s))) (capacity s));
      [discriminate|].
    destruct Hw as [Hw|[m Hw]]; rewrite Hw in Hws; [|discriminate].
    destruct (queue s); [simpl in *; lia|discriminate].
  - rewrite Hc in Hcs. destruct (worker s) eqn:Ew; try discriminate.
    + destruct (queue s); [rewrite Hq in Hws|]; discriminate.
    + now apply Hw.
  - rewrite Hc, Ht, Hq in Hcs. destruct op; discriminate.
Qed.

End AfterCloseFacts.


(** A write after [Close], run by the scheduler. *)
Example write_after_Close_run :
  let s := run (recordingWrite (fun _ => false)) 30
               (NewAsyncLogWriter [] 2
                  (writesThenClose ["a"; "b"] ++ [OpWrite "late"; OpWrite "x"])) in
  caller s = CallerPanicked "send on closed channel" /\
  sink s = ["a"; "b"] /\ todo s = [OpWrite "late"; OpWrite "x"].
Proof. vm_compute. repeat split. Qed.

(** ** The HTTP sink behind an asynchronous writer *)

Lemma posts_app (a b : list HTTPEvent) : posts (a ++ b) = (posts a ++ posts b)%list.
Proof.
  induction a as [|e a IH]; simpl; [reflexivity|].
  destruct e; simpl; now rewrite ?IH.
Qed.

Lemma bodyCloses_app (a b : list HTTPEvent) :
  bodyCloses (a ++ b) = (bodyCloses a + bodyCloses b)%nat.
Proof.
  induction a as [|e a IH]; simpl; [reflexivity|].
  destruct e; simpl; now rewrite ?IH.
Qed.

Lemma http_sinkAfter (post : string -> string -> string -> PostResult)
      (w : HTTPLogWriter) (ds : list string) :
  forall st,
    posts (sinkAfter (httpSinkWrite post w) st ds)
    = (posts st ++ map (fun d => (url w, "html/text", d)) ds)%list /\
    bodyCloses (sinkAfter (httpSinkWrite post w) st ds)
    = (bodyCloses st
       + length (filter (fun d => isResponse (post (url w) "html/text" d)) ds))%nat.
Proof.
  unfold sinkAfter. induction ds as [|d r IH]; intros st.
  - simpl. now rewrite app_nil_r, Nat.add_0_r.
  - cbn [fold_left map filter].
    destruct (IH (fst (httpSinkWrite post w st d))) as [H1 H2].
    rewrite H1, H2. unfold httpSinkWrite. cbn [fst].
    rewrite posts_app, bodyCloses_app.
    unfold HTTPLogWriter_Write.
    destruct (post (url w) "html/text" d) as [e|code]; simpl.
    + rewrite <- app_assoc. simpl. split; [reflexivity|lia].
    + destruct (negb (code =? http_StatusOK)); simpl;
        rewrite <- app_assoc; simpl; split; try reflexivity; lia.
Qed.



Example http_sink_run :
  let s := run (httpSinkWrite (fun _ _ _ => Response 500)
                              {| url := "http://h/log" |}) 30
               (NewAsyncLogWriter [] DEFAULT_QUEUE_SIZE
                  (writesThenClose ["r1"; "r2"])) in
  sink s = [EvPost "http://h/log" "html/text" "r1"; EvBodyClose;
            EvPost "http://h/log" "html/text" "r2"; EvBodyClose] /\
  results s = [(2, None); (2, None)] /\ finished s.
Proof. vm_compute. repeat split. Qed.

(** ** The earlier revision's asynchronous writer *)

Section Rev0Facts.
Context {Sink : Type}.
Variable write : Sink -> string -> Sink * (Z * option error).

Lemma inv0_init (sink0 : Sink) (n : Z) (msgs : list string) :
  inv0 sink0 (Rev0.NewAsyncLogWriter sink0 n (writesThenClose msgs)).
Proof.
  unfold inv0. simpl. split; [auto|]. split.
  - intros [H|H]; discriminate H.
  - left. repeat split; eauto. discriminate.
Qed.

Lemma inv0_step (sink0 : Sink) (a a' : Rev0.AState Sink) :
  inv0 sink0 a -> step0 write a a' -> inv0 sink0 a'.
Proof.
  unfold inv0. cbv zeta. intros (H1 & H2 & H3) [H|H].
  - unfold Rev0.callerStep in H. cbv zeta in H.
    destruct (caller (Rev0.sys a)) eqn:Ec; try discriminate.
    + destruct (todo (Rev0.sys a)) as [|[d|] rest] eqn:Et; try discriminate.
      * destruct (Z.of_nat (length (queue (Rev0.sys a))) <? capacity (Rev0.sys a));
          [|discriminate].
        inversion H; subst a'; clear H. simpl.
        split; [exact H1|]. split; [exact H2|].
        destruct H3 as [(_ & (r & Hr) & Hw)|[(Hc & _)|(_ & Ht & _)]];
          try discriminate.
        left. repeat split; auto.
        destruct r as [|d' r]; [discriminate|].
        inversion Hr; subst. now exists r.
      * inversion H; subst a'; clear H. simpl.
        split; [exact H1|].
        split; [intros Hw; destruct (H2 Hw) as (? & ? & _); auto|].
        destruct H3 as [(_ & (r & Hr) & Hw)|[(Hc & _)|(_ & Ht & _)]];
          try discriminate.
        right; left. repeat split; auto.
        destruct r as [|d' r]; [exact Hr|discriminate].
    + destruct (worker (Rev0.sys a)) eqn:Ew; try discriminate.
      inversion H; subst a'; clear H. simpl.
      destruct (H2 (or_introl eq_refl)) as (Ha & Hs & Hcl).
      split; [intros He; destruct (H1 He) as (Hx & _); discriminate|].
      split; [intros _; auto|].
      destruct H3 as [(Hc & _)|[(_ & Ht & _)|(Hc & _)]]; try discriminate.
      right; right. rewrite Ht. simpl. auto.
  - unfold Rev0.workerStep in H. cbv zeta in H.
    destruct (Rev0.entered a) eqn:Ee; simpl in H.
    + destruct (worker (Rev0.sys a)) eqn:Ew; try discriminate.
      * destruct (queue (Rev0.sys a)) as [|m q]; [discriminate|].
        inversion H; subst a'; clear H. simpl.
        split; [discriminate|].
        split; [intros [Hx|Hx]; discriminate|].
        destruct H3 as [(Hc & Hr & _)|[(Hc & Ht & _)|(_ & _ & Hw)]];
          try discriminate.
        -- left. repeat split; auto. discriminate.
        -- right; left. repeat split; auto. discriminate.
      * inversion H; subst a'; clear H. simpl.
        split; [discriminate|].
        split; [intros [Hx|Hx]; discriminate|].
        destruct H3 as [(Hc & Hr & _)|[(Hc & Ht & _)|(_ & _ & Hw)]];
          try discriminate.
        -- left. repeat split; auto. discriminate.
        -- right; left. repeat split; auto. discriminate.
    + destruct (H1 eq_refl) as (Hw & Ha & Hs).
      inversion H; subst a'; clear H. simpl.
      split; [discriminate|].
      split.
      * destruct (Rev0.closing a); [auto|intros [Hx|Hx]; discriminate].
      * destruct H3 as [(Hc & Hr & _)|[(Hc & Ht & _)|(_ & _ & Hf)]];
          [| |congruence].
        -- left. repeat split; auto. destruct (Rev0.closing a); discriminate.
        -- right; left. repeat split; auto.
           destruct (Rev0.closing a); discriminate.
Qed.

Lemma inv0_reachable (sink0 : Sink) (n : Z) (msgs : list string)
      (a : Rev0.AState Sink) :
  reachable0 write (Rev0.NewAsyncLogWriter sink0 n (writesThenClose msgs)) a ->
  inv0 sink0 a.
Proof.
  induction 1 as [|a a' _ IH Hstep].
  - apply inv0_init.
  - exact (inv0_step sink0 a a' IH Hstep).
Qed.

Lemma follow_reachable0 (turns : list Rev0.Turn) :
  forall a0 a, reachable0 write a0 a ->
               reachable0 write a0 (followed write turns a).
Proof.
  unfold followed.
  induction turns as [|[|] r IH]; intros a0 a Hr; simpl; [exact Hr| |].
  - destruct (Rev0.callerStep a) as [a1|] eqn:E; [|exact Hr].
    specialize (IH a0 a1 (reach0_step write a0 a a1 Hr (or_introl E))).
    destruct (Rev0.follow write r a1); [exact IH|exact Hr].
  - destruct (Rev0.workerStep write a) as [a1|] eqn:E; [|exact Hr].
    specialize (IH a0 a1 (reach0_step write a0 a a1 Hr (or_intror E))).
    destruct (Rev0.follow write r a1); [exact IH|exact Hr].
Qed.

End Rev0Facts.



(** ** The earlier revision's logger *)

Lemma unlocked_app (a b : list Event) :
  unlocked (a ++ b) = (unlocked a ++ unlocked b)%list.
Proof.
  induction a as [|e a IH]; simpl; [reflexivity|].
  destruct e; simpl; now rewrite ?IH.
Qed.

Lemma unlocked_emission (logger : Logger) (t : Time) (lvl : Z) (s : string) :
  unlocked (emissionTrace logger t lvl s) = bareEmission logger t lvl s /\
  lockEvents (bareEmission logger t lvl s) = [].
Proof.
  unfold emissionTrace, bareEmission.
  destruct (formatter logger), (writer logger); split; reflexivity.
Qed.

(** The earlier body, with a formatter and without. *)
Lemma rev0_body_spec (logger : Logger) (lvl : Z) (s : string) (w : World) :
  (msg <- Rev0Logger.callFormatter logger lvl s ;; writeOut logger msg) w
  = match formatter logger with
    | Some _ =>
        (Returned tt, after w (bareEmission logger (clock w (ticks w)) lvl s))
    | None => (Panicked Rev0Logger.nilDereference, after w [])
    end.
Proof.
  unfold Rev0Logger.callFormatter, writeOut, Logger_Writer, bareEmission,
    recordText, after, bind, time_Now, emit, ret, panic.
  destruct (formatter logger), (writer logger); simpl;
    rewrite <- ?app_assoc, ?app_nil_r; reflexivity.
Qed.

(** The two revisions of the emission functions, on a logger with a
    formatter: each call of the earlier revision ends the same way as the
    call of the later one, reads the clock as often, and makes the same
    formatter call and the same sink write in the same order; the later
    revision adds the lock events and nothing else. *)
Theorem rev0_emission_agrees {F : Fmt}
  (logger : Logger) (f : LogFormatter) (L : Z) (v : list iface)
  (format : string) (w : World) :
  formatter logger = Some f ->
  Forall (fun p =>
            fst (fst p) = fst (snd p) /\
            ticks (snd (fst p)) = ticks (snd (snd p)) /\
            exists added,
              trace (snd (fst p)) = (trace w ++ added)%list /\
              unlocked (trace (snd (snd p)))
              = (unlocked (trace w) ++ added)%list /\
              lockEvents added = [])
    [(Rev0Logger.Print logger v w, Print logger v w);
     (Rev0Logger.Printf logger format v w, Printf logger format v w);
     (Rev0Logger.Println logger v w, Println logger v w);
     (Rev0Logger.Log logger L v w, Log logger L v w);
     (Rev0Logger.Logf logger L format v w, Logf logger L format v w);
     (Rev0Logger.Logln logger L v w, Logln logger L v w)].
Proof.
  intros Hf.
  assert (P : forall lvl s,
             let old := (msg <- Rev0Logger.callFormatter logger lvl s ;;
                         writeOut logger msg) w in
             let new := emitAt logger lvl s w in
             fst old = fst new /\
             ticks (snd old) = ticks (snd new) /\
             exists added,
               trace (snd old) = (trace w ++ added)%list /\
               unlocked (trace (snd new)) = (unlocked (trace w) ++ added)%list /\
               lockEvents added = []).
  { intros lvl s. cbv zeta. rewrite rev0_body_spec, emitAt_spec, Hf. simpl.
    destruct (unlocked_emission logger (clock w (ticks w)) lvl s) as [U N].
    repeat split. eexists. split; [reflexivity|].
    rewrite unlocked_app, U. split; [reflexivity|exact N]. }
  assert (Q : forall lvl s,
             let old := (if lvl >=? level logger
                         then (msg <- Rev0Logger.callFormatter logger lvl s ;;
                               writeOut logger msg)
                         else ret tt) w in
             let new := (if lvl >=? level logger
                         then emitAt logger lvl s else ret tt) w in
             fst old = fst new /\
             ticks (snd old) = ticks (snd new) /\
             exists added,
               trace (snd old) = (trace w ++ added)%list /\
               unlocked (trace (snd new)) = (unlocked (trace w) ++ added)%list /\
               lockEvents added = []).
  { intros lvl s. cbv zeta. destruct (lvl >=? level logger); [apply P|].
    simpl. repeat split. exists []. rewrite !app_nil_r. repeat split. }
  repeat constructor; first [apply P | apply Q].
Qed.

Lemma rev0_emission_agrees_witness :
  fst (@Rev0Logger.Logf StringFmt fileLogger LOG_LEVEL_ERROR "disk %s" ["full"]
         (fresh tickingClock))
  = fst (@Logf StringFmt fileLogger LOG_LEVEL_ERROR "disk %s" ["full"]
           (fresh tickingClock)).
Proof.
  pose proof (@rev0_emission_agrees StringFmt fileLogger DefaultLogFormatter
                LOG_LEVEL_ERROR ["full"] "disk %s" (fresh tickingClock)
                eq_refl) as D.
  exact (proj1 (Forall_inv (Forall_inv_tail (Forall_inv_tail
           (Forall_inv_tail (Forall_inv_tail D)))))).
Defined.

(** The earlier revision without a formatter, and its resources.  After
    [SetFormatter(nil)] a [Log] call at or above the threshold panics on
    the nil interface with nothing written, and one below the threshold
    returns untouched.  [New] never makes the logger own its
    writer, so [Close] on such a logger does nothing; and no [Fatal] or
    [Panic] function closes anything, whatever the logger owns. *)
Theorem rev0_nil_formatter_and_resources {F : Fmt}
  (logger : Logger) (L : Z) (v : list iface) (format : string)
  (sinkw : option Writer) (w : World) :
  let bare := Rev0Logger.SetFormatter logger None in
  (level logger <= L ->
   fst (Rev0Logger.Log bare L v w) = Panicked Rev0Logger.nilDereference /\
   trace (snd (Rev0Logger.Log bare L v w)) = trace w) /\
  (L < level logger -> Rev0Logger.Log bare L v w = (Returned tt, w)) /\
  Rev0Logger.Logger_Close (Rev0Logger.New sinkw L) w = (Returned tt, w) /\
  Forall (fun w' => closes (trace w') = closes (trace w))
    [snd (Rev0Logger.Fatal logger v w); snd (Rev0Logger.Fatalf logger format v w);
     snd (Rev0Logger.Fatalln logger v w); snd (Rev0Logger.Panic logger v w);
     snd (Rev0Logger.Panicf logger format v w);
     snd (Rev0Logger.Panicln logger v w)].
Proof.
  cbv zeta. split; [|split; [|split]].
  - intros HL. unfold Rev0Logger.Log.
    destruct (Z.geb_spec L (level (Rev0Logger.SetFormatter logger None)));
      [|simpl in *; lia].
    rewrite rev0_body_spec. simpl. split; [reflexivity|apply app_nil_r].
  - intros HL. unfold Rev0Logger.Log.
    destruct (Z.geb_spec L (level (Rev0Logger.SetFormatter logger None)));
      [simpl in *; lia|reflexivity].
  - reflexivity.
  - assert (K : forall A lvl s (final : M A) o,
               (forall w0, final w0 = (o, w0)) ->
               closes (trace (snd (((if lvl >=? level logger
                                     then (msg <- Rev0Logger.callFormatter
                                                    logger lvl s ;;
                                           writeOut logger msg)
                                     else ret tt) ;;; final) w)))
               = closes (trace w)).
    { intros A lvl s final o Hfin. unfold bind at 1.
      destruct (lvl >=? level logger).
      - rewrite rev0_body_spec. unfold bareEmission.
        destruct (formatter logger), (writer logger); simpl;
          rewrite ?Hfin; simpl; rewrite closes_app; simpl;
          apply app_nil_r.
      - simpl. rewrite Hfin. reflexivity. }
    repeat constructor;
      first [ apply (K unit _ _ (os_Exit 1) (Exited 1)); reflexivity
            | apply (K unit _ _ (panic PanicNil) (Panicked PanicNil));
              reflexivity ].
Qed.

(** ** Reading a default record back *)

Lemma string_app_inv_head (p a b : string) :
  (p ++ a)%string = (p ++ b)%string -> a = b.
Proof.
  induction p as [|c p IH]; simpl; intros H; [exact H|].
  inversion H. now apply IH.
Qed.

Lemma string_app_newline_inv (a b : string) :
  (a ++ newline)%string = (b ++ newline)%string -> a = b.
Proof.
  revert b. induction a as [|x a IH]; intros [|y b] H; simpl in H.
  - reflexivity.
  - inversion H. destruct b; discriminate.
  - inversion H. destruct a; discriminate.
  - inversion H. f_equal. now apply IH.
Qed.

(** A record of the default formatter tells its level and its message:
    two records that are equal were made at the same level of the
    enumeration (the first byte of the record decides it), and, when their
    rendered times agree, from the same message. *)
Theorem default_record_determines_level_and_message
  (t t' : Time) (l l' : Z) (m m' : string) :
  In l levels -> In l' levels ->
  Format DefaultLogFormatter t l m = Format DefaultLogFormatter t' l' m' ->
  l = l' /\
  (Time_Format (Time_UTC t) layout = Time_Format (Time_UTC t') layout ->
   m = m').
Proof.
  intros Hl Hl' E.
  assert (L : l = l').
  { unfold levels in Hl, Hl'. simpl in Hl, Hl', E.
    unfold DefaultLogFormatter_Format in E.
    repeat (destruct Hl as [Hl|Hl]; [subst l|]); try contradiction;
      repeat (destruct Hl' as [Hl'|Hl']; [subst l'|]); try contradiction;
      first [reflexivity | discriminate E]. }
  split; [exact L|]. subst l'. intros Ht.
  cbn [Format DefaultLogFormatter] in E.
  unfold DefaultLogFormatter_Format in E. rewrite Ht in E.
  do 4 apply string_app_inv_head in E.
  now apply string_app_newline_inv.
Qed.

Lemma default_record_determines_level_and_message_witness :
  LOG_LEVEL_INFO = LOG_LEVEL_INFO /\
  (Time_Format (Time_UTC referenceTime) layout
   = Time_Format (Time_UTC referenceTime) layout ->
   "Hello World!" = "Hello World!").
Proof.
  apply (default_record_determines_level_and_message
           referenceTime referenceTime LOG_LEVEL_INFO LOG_LEVEL_INFO
           "Hello World!" "Hello World!").
  - unfold levels. simpl. tauto.
  - unfold levels. simpl. tauto.
  - reflexivity.
Defined.

(** ** A logger over an asynchronous writer, end to end *)

(** A logger whose writer is an asynchronous writer is given a batch of
    [Log] calls, and the writer is then closed.  Once that [Close] has
    returned, under any interleaving of the draining goroutine, the
    wrapped sink has been written exactly the records of the calls at or
    above the threshold, each once, in the order of the calls. *)
Theorem logger_over_async_writer_delivers {F : Fmt} {Sink : Type}
  (write : Sink -> string -> Sink * (Z * option error))
  (sink0 : Sink) (n : Z) (logger : Logger) (aw : nat)
  (calls : list (Z * list iface)) (clk : nat -> Time) (s : Sys Sink) :
  writer logger = Some (AsyncWriter aw) ->
  reachable write
    (NewAsyncLogWriter sink0 n
       (writerProgram (trace (snd (logAll logger calls (fresh clk)))))) s ->
  finished s ->
  attempts s = batchRecords logger clk 0 calls /\
  sink s = sinkAfter write sink0 (batchRecords logger clk 0 calls) /\
  length (attempts s)
  = length (filter (fun c => fst c >=? level logger) calls).
Proof.
  intros Hw Hr Hf.
  destruct (logAll_spec logger (AsyncWriter aw) Hw calls (fresh clk))
    as (w' & E & _ & _ & Hwr & _).
  rewrite E in Hr. simpl in Hr. unfold writerProgram in Hr. rewrite Hwr in Hr.
  simpl in Hr.
  destruct (drained_when_finished write sink0 n _ s Hr Hf) as (Ha & Hs & _).
  rewrite Ha. repeat split; [exact Hs|apply batchRecords_length].
Qed.

Lemma logger_over_async_writer_delivers_witness :
  let logger := New (Some (AsyncWriter 0)) LOG_LEVEL_WARN in
  let calls := [(LOG_LEVEL_ERROR, ["e"]); (LOG_LEVEL_INFO, ["i"]);
                (LOG_LEVEL_WARN, ["w"])] in
  let s := run (recordingWrite (fun _ => false)) 30
               (NewAsyncLogWriter [] 1
                  (writerProgram
                     (trace (snd (@logAll StringFmt logger calls
                                    (fresh tickingClock)))))) in
  attempts s = @batchRecords StringFmt logger tickingClock 0 calls /\
  sink s = sinkAfter (recordingWrite (fun _ => false)) []
                     (@batchRecords StringFmt logger tickingClock 0 calls) /\
  length (attempts s)
  = length (filter (fun c => fst c >=? level logger) calls).
Proof.
  apply (@logger_over_async_writer_delivers StringFmt (list string)
           (recordingWrite (fun _ => false)) [] 1
           (New (Some (AsyncWriter 0)) LOG_LEVEL_WARN) 0
           [(LOG_LEVEL_ERROR, ["e"]); (LOG_LEVEL_INFO, ["i"]);
            (LOG_LEVEL_WARN, ["w"])] tickingClock).
  - reflexivity.
  - apply run_reachable. apply reach_start.
  - vm_compute. split; reflexivity.
Defined.

Example logger_over_async_writer_run :
  sink (run (recordingWrite (fun _ => false)) 30
            (NewAsyncLogWriter [] 1
               (writerProgram
                  (trace (snd (logAll (New (Some (AsyncWriter 0)) LOG_LEVEL_WARN)
                                 [(LOG_LEVEL_ERROR, ["e"]); (LOG_LEVEL_INFO, ["i"]);
                                  (LOG_LEVEL_WARN, ["w"])]
                                 (fresh tickingClock)))))))
  = [("ERROR: 2006-01-02T22:04:05 (UTC): e" ++ newline)%string;
     ("WARN: 2006-01-02T22:04:06 (UTC): w" ++ newline)%string].
Proof. vm_compute. reflexivity. Qed.

(** ** The two revisions of the sinks' constructors and writes *)

(** [NewFileLogger] in the two revisions makes the same calls on the
    operating system, in the same order; where the later revision returns
    a nil logger and an error the earlier one panics with that error, and
    where the later one returns a logger the earlier one returns a logger
    over the same file with the same level, path and name. *)
Theorem rev0_NewFileLogger_panics_where_later_returns_error
  (os : OS) (logpath fname0 : string) (loglevel : Z) :
  snd (Rev0.NewFileLogger os logpath fname0 loglevel)
  = snd (NewFileLogger os logpath fname0 loglevel) /\
  match fst (NewFileLogger os logpath fname0 loglevel) with
  | Returned (None, Some e) =>
      fst (Rev0.NewFileLogger os logpath fname0 loglevel)
      = Panicked (PanicError e)
  | Returned (Some lg, None) =>
      exists lg0,
        fst (Rev0.NewFileLogger os logpath fname0 loglevel) = Returned lg0 /\
        (level lg0, path lg0, fname lg0, writer lg0, writeCloser lg0)
        = (level lg, path lg, fname lg, writer lg, writeCloser lg)
  | _ => False
  end.
Proof.
  unfold Rev0.NewFileLogger, NewFileLogger.
  destruct (MkdirAll os logpath perm0750) as [e|]; simpl.
  - split; reflexivity.
  - destruct (OpenFile os _ _ perm0640) as [file|e]; simpl.
    + split; [reflexivity|]. eexists. split; reflexivity.
    + split; reflexivity.
Qed.

(** [HTTPLogWriter.Write] in the two revisions makes the same request and
    closes the same body; the results agree on a transport error and on a
    response with status 200, and on every other response the earlier
    revision reports the whole payload written and no error where the
    later one reports an error. *)
Theorem rev0_http_write_reports_success_on_any_response
  (post : string -> string -> string -> PostResult)
  (w : HTTPLogWriter) (data : string) :
  snd (Rev0.HTTPLogWriter_Write post w data)
  = snd (HTTPLogWriter_Write post w data) /\
  match post (url w) "html/text" data with
  | TransportError e =>
      fst (Rev0.HTTPLogWriter_Write post w data) = (0, Some e) /\
      fst (HTTPLogWriter_Write post w data) = (0, Some e)
  | Response code =>
      fst (Rev0.HTTPLogWriter_Write post w data) = (len data, None) /\
      (code <> http_StatusOK ->
       exists e, fst (HTTPLogWriter_Write post w data) = (0, Some e)) /\
      (code = http_StatusOK ->
       fst (HTTPLogWriter_Write post w data) = (len data, None))
  end.
Proof.
  unfold Rev0.HTTPLogWriter_Write, HTTPLogWriter_Write.
  destruct (post (url w) "html/text" data) as [e|code]; simpl.
  - repeat split.
  - destruct (Z.eqb_spec code http_StatusOK) as [->|Hne]; simpl.
    + repeat split. intros H. contradiction.
    + repeat split; [eauto|intros H; contradiction].
Qed.
